(** * ishell: command resolution and autocompletion

    A shallow embedding of [command.go] (the command tree, [FindCmd],
    [IsValid], [HelpText]) and of the completer ([iCompleter.Do],
    [getWords]), followed by the properties established about them.

    Conventions of the embedding:
    - a [*Cmd] is an address [ptr]; the possibly-nil pointer is [option ptr];
      the store maps every address to the [Cmd] it holds ([heap]);
    - a Go [map[string]*Cmd] field is [option (gmap string ptr)], [None]
      being the nil map;
    - Go strings are byte strings ([string], one [ascii] per byte);
    - ranging over a Go map visits the entries in an order chosen by the
      runtime, which may differ from one [range] statement to the next: the
      functions that range over a map run in the state monad [M] over the
      runtime's stream of iteration orders ([sched]). *)

From Stdlib Require Import ZArith Ascii String OrdersEx.
From stdpp Require Import base option list gmap strings sorting functions.

Local Open Scope Z_scope.

(** ** The Go runtime, as far as the package uses it *)

Module Go.

(** Line feed and horizontal tab. *)
Definition LF : string := String "010"%char EmptyString.
Definition TAB : string := String "009"%char EmptyString.

(** [strings.HasPrefix] and [strings.TrimPrefix], bytewise. *)
Fixpoint HasPrefix (s prefix : string) : bool :=
  match prefix, s with
  | EmptyString, _ => true
  | String p prefix', String a s' => Ascii.eqb a p && HasPrefix s' prefix'
  | String _ _, EmptyString => false
  end.

Fixpoint string_drop (n : nat) (s : string) : string :=
  match n, s with
  | O, _ => s
  | S n', String _ s' => string_drop n' s'
  | S _, EmptyString => EmptyString
  end.

Definition TrimPrefix (s prefix : string) : string :=
  if HasPrefix s prefix then string_drop (String.length prefix) s else s.

(** [fmt.Sprintln]: operands separated by spaces, newline appended. *)
Fixpoint Sprint_operands (s : list string) : string :=
  match s with
  | [] => EmptyString
  | [x] => x
  | x :: rest => x +:+ " " +:+ Sprint_operands rest
  end.

Definition Sprintln (s : list string) : string := Sprint_operands s +:+ LF.

(** *** Runes and UTF-8 ([string(r)] and [[]rune(s)]) *)

Definition rune := Z.
Definition RuneError : rune := 0xFFFD.
Definition MaxRune : rune := 0x10FFFF.

Definition byte_of (z : Z) : ascii := ascii_of_N (Z.to_N z).
Definition of_byte (a : ascii) : Z := Z.of_N (N_of_ascii a).

Definition bytes (l : list Z) : string :=
  fold_right (λ z s, String (byte_of z) s) EmptyString l.

Definition encode3 (r : rune) : string :=
  bytes [Z.lor 0xE0 (Z.shiftr r 12);
         Z.lor 0x80 (Z.land (Z.shiftr r 6) 0x3F);
         Z.lor 0x80 (Z.land r 0x3F)].

(** [encoderune]: the UTF-8 bytes of one rune; surrogates and values out
    of range are written as U+FFFD. *)
Definition encoderune (r : rune) : string :=
  if (0 <=? r) && (r <=? 0x7F) then bytes [r]
  else if (0 <=? r) && (r <=? 0x7FF) then
    bytes [Z.lor 0xC0 (Z.shiftr r 6); Z.lor 0x80 (Z.land r 0x3F)]
  else if (r <? 0) || (MaxRune <? r) || ((0xD800 <=? r) && (r <=? 0xDFFF)) then
    encode3 RuneError
  else if r <=? 0xFFFF then encode3 r
  else
    bytes [Z.lor 0xF0 (Z.shiftr r 18);
           Z.lor 0x80 (Z.land (Z.shiftr r 12) 0x3F);
           Z.lor 0x80 (Z.land (Z.shiftr r 6) 0x3F);
           Z.lor 0x80 (Z.land r 0x3F)].

(** [string(rs)] for [rs : []rune]. *)
Fixpoint string_of_runes (rs : list rune) : string :=
  match rs with
  | [] => EmptyString
  | r :: rs' => encoderune r +:+ string_of_runes rs'
  end.

(** The [first] table of the decoder: for a leading byte, the length of
    the sequence and the accepted range of the second byte; [None] for a
    byte that cannot start a sequence. *)
Definition first (p0 : Z) : option (Z * Z * Z) :=
  if p0 <? 0xC2 then None
  else if p0 <=? 0xDF then Some (2, 0x80, 0xBF)
  else if p0 =? 0xE0 then Some (3, 0xA0, 0xBF)
  else if p0 <=? 0xEC then Some (3, 0x80, 0xBF)
  else if p0 =? 0xED then Some (3, 0x80, 0x9F)
  else if p0 <=? 0xEF then Some (3, 0x80, 0xBF)
  else if p0 =? 0xF0 then Some (4, 0x90, 0xBF)
  else if p0 <=? 0xF3 then Some (4, 0x80, 0xBF)
  else if p0 =? 0xF4 then Some (4, 0x80, 0x8F)
  else None.

Definition outside (lo hi b : Z) : bool := (b <? lo) || (hi <? b).

(** [[]rune(s)]: decode [s] rune by rune; a byte that does not start a
    well-formed sequence yields U+FFFD and is skipped alone. *)
Fixpoint runes_of_string (s : string) : list rune :=
  match s with
  | EmptyString => []
  | String a0 s1 =>
    let p0 := of_byte a0 in
    if p0 <? 0x80 then p0 :: runes_of_string s1
    else
      match first p0, s1 with
      | None, _ | _, EmptyString => RuneError :: runes_of_string s1
      | Some (sz, lo, hi), String a1 s2 =>
        let b1 := of_byte a1 in
        if outside lo hi b1 then RuneError :: runes_of_string s1
        else if sz <=? 2 then
          Z.lor (Z.shiftl (Z.land p0 0x1F) 6) (Z.land b1 0x3F)
            :: runes_of_string s2
        else
          match s2 with
          | EmptyString => RuneError :: runes_of_string s1
          | String a2 s3 =>
            let b2 := of_byte a2 in
            if outside 0x80 0xBF b2 then RuneError :: runes_of_string s1
            else if sz <=? 3 then
              Z.lor (Z.lor (Z.shiftl (Z.land p0 0x0F) 12)
                           (Z.shiftl (Z.land b1 0x3F) 6))
                    (Z.land b2 0x3F)
                :: runes_of_string s3
            else
              match s3 with
              | EmptyString => RuneError :: runes_of_string s1
              | String a3 s4 =>
                let b3 := of_byte a3 in
                if outside 0x80 0xBF b3 then RuneError :: runes_of_string s1
                else
                  Z.lor (Z.lor (Z.lor (Z.shiftl (Z.land p0 0x07) 18)
                                      (Z.shiftl (Z.land b1 0x3F) 12))
                               (Z.shiftl (Z.land b2 0x3F) 6))
                        (Z.land b3 0x3F)
                    :: runes_of_string s4
              end
          end
      end
  end.

(** *** Map iteration *)

(** One iteration order: a rearrangement of the entries of the map. *)
Record order := Order {
  permute : ∀ A : Type, list A → list A;
  permute_perm : ∀ A (l : list A), permute A l ≡ₚ l
}.

(** The runtime's choices: the order used by the next [range] over a map,
    the one after it, and so on. *)
Definition sched := nat → order.

Definition M (A : Type) : Type := sched → A * sched.

#[global] Instance M_ret : MRet M := λ A a s, (a, s).
#[global] Instance M_bind : MBind M :=
  λ A B f m s, let '(a, s') := m s in f a s'.

Definition next (s : sched) : sched := λ n, s (S n).

(** [for k, v := range m]: the entries of [m] in the order the runtime
    picks for this statement. *)
Definition rangeMap `{Countable K} {V} (m : gmap K V) : M (list (K * V)) :=
  λ s, (permute (s O) _ (map_to_list m), next s).

(** The order that visits the entries as [map_to_list] lists them, and its
    reverse. *)
Program Definition forward : order := {| permute := λ A l, l |}.
Next Obligation. done. Qed.

Program Definition backward : order := {| permute := λ A l, reverse l |}.
Next Obligation. intros. apply reverse_Permutation. Qed.

(** [not_after Less a b]: [b] is not before [a], the order a sort by
    [Less] establishes between an element and the ones that follow it. *)
Definition not_after {A} (Less : A → A → bool) : relation A :=
  λ a b, Less b a = false.

#[global] Instance not_after_dec {A} (Less : A → A → bool) a b :
  Decision (not_after Less a b).
Proof. unfold not_after. apply _. Defined.

(** [sort.Sort] over a [Less] function.  The library sort is not stable;
    a stable merge sort is used here, which loses nothing where the input
    already comes in an arbitrary order. *)
Definition sort_Sort {A} (Less : A → A → bool) (l : list A) : list A :=
  merge_sort (not_after Less) l.

End Go.

Import Go.


(** ** The command tree ([command.go]) *)

(** The address of a [Cmd]; a [*Cmd] that may be nil is an [option ptr]. *)
Definition ptr := positive.
Bind Scope positive_scope with ptr.

(** The handler [func(c *Context)] is never called by the code embedded
    here; only which handler a node carries is kept. *)
Inductive handler := Handler (id : N).

(** Values of Go's [error] interface built by [errors.New]. *)
Inductive error := errors_New (msg : string).

Record Cmd := mkCmd {
  Name : string;
  Aliases : list string;
  Func : option handler;
  Help : string;
  LongHelp : string;
  Completer : option (list string → list string);
  CompleterWithPrefix : option (string → list string → list string);
  children : option (gmap string ptr);
  optionalChildren : option (gmap string ptr)
}.

(** The store: what each address holds. *)
Abbreviation heap := (ptr → Cmd).

(** Reading a map that may be nil: a nil map reads as the empty map. *)
Definition entries {V} (m : option (gmap string V)) : gmap string V :=
  default ∅ m.

Definition with_children (c : Cmd) (m : option (gmap string ptr)) : Cmd :=
  mkCmd (Name c) (Aliases c) (Func c) (Help c) (LongHelp c) (Completer c)
        (CompleterWithPrefix c) m (optionalChildren c).

Definition with_optionalChildren (c : Cmd) (m : option (gmap string ptr)) : Cmd :=
  mkCmd (Name c) (Aliases c) (Func c) (Help c) (LongHelp c) (Completer c)
        (CompleterWithPrefix c) (children c) m.

(** [c.AddCmd(cmd)]: the map is made when nil, then [cmd] is stored under
    its name. *)
Definition AddCmd (h : heap) (c cmd : ptr) : heap :=
  <[c := with_children (h c) (Some (<[Name (h cmd) := cmd]> (entries (children (h c)))))]> h.

Definition AddOptionalCmd (h : heap) (c cmd : ptr) : heap :=
  <[c := with_optionalChildren (h c)
           (Some (<[Name (h cmd) := cmd]> (entries (optionalChildren (h c)))))]> h.

(** [c.DeleteCmd(name)]: the builtin [delete], which leaves a nil map nil. *)
Definition DeleteCmd (h : heap) (c : ptr) (name : string) : heap :=
  <[c := with_children (h c) (delete name <$> children (h c))]> h.

(** [cmdSorter.Less]: by [Name], bytewise. *)
Definition cmdSorter_Less (h : heap) (a b : ptr) : bool :=
  String.ltb (Name (h a)) (Name (h b)).

Definition Children (h : heap) (c : Cmd) : M (list ptr) :=
  kvs ← rangeMap (entries (children c));
  mret (sort_Sort (cmdSorter_Less h) (kvs.*2)).

Definition OptionalChildren (h : heap) (c : Cmd) : M (list ptr) :=
  kvs ← rangeMap (entries (optionalChildren c));
  mret (sort_Sort (cmdSorter_Less h) (kvs.*2)).

Definition hasSubcommand (c : Cmd) : bool :=
  if (1 <? size (entries (children c)))%nat then true
  else
    match entries (children c) !! "help" with
    | None => (0 <? size (entries (children c)))%nat
    | Some _ => false
    end.

Definition hasOptionalSubcommands (h : heap) (c : Cmd) : M bool :=
  cmds ← OptionalChildren h c;
  if (1 <? length cmds)%nat then mret true
  else
    match entries (optionalChildren c) !! "help" with
    | None => mret (0 <? size (entries (optionalChildren c)))%nat
    | Some _ => mret false
    end.

Section HelpText.

(** [text/tabwriter] is outside the package: [tabwriter] stands for the
    writer made by [tabwriter.NewWriter(&b, 0, 4, 2, ' ', 0)], mapping the
    text written to it to the text it emits on [Flush]. *)
Variable tabwriter : string → string.

(** The closure [p] of [HelpText], on the buffer [b]. *)
Definition p (b : string) (s : list string) : string :=
  let b := b +:+ Sprintln [] in
  match s with
  | [] => b
  | _ :: _ => b +:+ Sprintln s
  end.

(** [fmt.Fprintf(w, "\t%s\t\t\t%s\n", child.Name, child.Help)] *)
Definition Fprintf_row (w : string) (child : Cmd) : string :=
  w +:+ TAB +:+ Name child +:+ TAB +:+ TAB +:+ TAB +:+ Help child +:+ LF.

Definition write_rows (h : heap) (cmds : list ptr) : string :=
  fold_left (λ w child, Fprintf_row w (h child)) cmds EmptyString.

Definition HelpText (h : heap) (c : Cmd) : M string :=
  let b := EmptyString in
  let b :=
    if negb (String.eqb (LongHelp c) "") then p b [LongHelp c]
    else if negb (String.eqb (Help c) "") then p b [Help c]
    else if negb (String.eqb (Name c) "") then p b [Name c; "has no help"]
    else b in
  b ← (if hasSubcommand c then
         let b := p b ["Commands:"] in
         cmds ← Children h c;
         let b := b +:+ tabwriter (write_rows h cmds) in
         mret (p b [])
       else mret b);
  opt ← hasOptionalSubcommands h c;
  if opt : bool then
    let b := p b ["Optional Commands:"] in
    cmds ← OptionalChildren h c;
    let b := b +:+ tabwriter (write_rows h cmds) in
    mret (p b [])
  else mret b.

End HelpText.

(** The inner loop of [findChildCmd]: [for _, alias := range cmd.Aliases]. *)
Fixpoint aliasMatches (aliases : list string) (name : string) : bool :=
  match aliases with
  | [] => false
  | alias :: rest => if String.eqb alias name then true else aliasMatches rest name
  end.

(** The outer loop: the first visited child with a matching alias. *)
Fixpoint findAlias (h : heap) (kvs : list (string * ptr)) (name : string) : option ptr :=
  match kvs with
  | [] => None
  | (_, cmd) :: rest =>
    if aliasMatches (Aliases (h cmd)) name then Some cmd else findAlias h rest name
  end.

Definition findChildCmd (h : heap) (c : Cmd) (name : string) : M (option ptr) :=
  match entries (children c) !! name with
  | Some cmd => mret (Some cmd)
  | None =>
    kvs ← rangeMap (entries (children c));
    mret (findAlias h kvs name)
  end.

Definition findOptionalChildCmd (h : heap) (c : Cmd) (name : string) : M (option ptr) :=
  match entries (optionalChildren c) !! name with
  | Some cmd => mret (Some cmd)
  | None =>
    kvs ← rangeMap (entries (optionalChildren c));
    mret (findAlias h kvs name)
  end.

(** The variables of the first loop of [FindCmd]. *)
Record required_st := RequiredSt {
  rs_cmd : option ptr;
  rs_c : Cmd;
  rs_remArgs : list string
}.

(** [for i, arg := range args] from index [i] on, [rest] being [args[i:]]. *)
Fixpoint FindCmd_required (h : heap) (args : list string) (i : nat)
    (rest : list string) (st : required_st) : M required_st :=
  match rest with
  | [] => mret st
  | arg :: rest' =>
    cmd1 ← findChildCmd h (rs_c st) arg;
    match cmd1 with
    | Some cmd => FindCmd_required h args (S i) rest' (RequiredSt (Some cmd) (h cmd) (drop (S i) args))
    | None => FindCmd_required h args (S i) rest' st
    end
  end.

(** The variables of the second loop of [FindCmd]. *)
Record optional_st := OptionalSt {
  os_optCmd : option ptr;
  os_optCmdMap : gmap ptr string;
  os_optArgs : string
}.

(** [if optCmd != nil { optCmdMap[optCmd] = optArgs }] *)
Definition closeOut (st : optional_st) : gmap ptr string :=
  match os_optCmd st with
  | Some optCmd => <[optCmd := os_optArgs st]> (os_optCmdMap st)
  | None => os_optCmdMap st
  end.

Fixpoint FindCmd_optional (h : heap) (c : Cmd) (remArgs : list string)
    (st : optional_st) : M optional_st :=
  match remArgs with
  | [] => mret st
  | arg :: rest =>
    cmd1 ← findOptionalChildCmd h c arg;
    match cmd1 with
    | Some cmd => FindCmd_optional h c rest (OptionalSt (Some cmd) (closeOut st) "")
    | None => FindCmd_optional h c rest (OptionalSt (os_optCmd st) (os_optCmdMap st) arg)
    end
  end.

Definition FindCmd (h : heap) (c : Cmd) (args : list string)
    : M (option ptr * gmap ptr string * list string) :=
  st ← FindCmd_required h args 0 args (RequiredSt None c []);
  ost ← FindCmd_optional h (rs_c st) (rs_remArgs st) (OptionalSt None ∅ "");
  mret (rs_cmd st, closeOut ost, rs_remArgs st).

(** [for i, arg := range args] of [FindOptionalCmd]. *)
Fixpoint FindOptionalCmd_loop (h : heap) (c : Cmd) (cmd : option ptr)
    (rest : list string) : M (option ptr * list string) :=
  match rest with
  | [] => mret (cmd, [])
  | arg :: rest' =>
    cmd1 ← findOptionalChildCmd h c arg;
    match cmd1 with
    | Some cmd' => FindOptionalCmd_loop h (h cmd') (Some cmd') rest'
    | None => mret (cmd, rest)
    end
  end.

Definition FindOptionalCmd (h : heap) (c : Cmd) (args : list string)
    : M (option ptr * list string) :=
  FindOptionalCmd_loop h c None args.

Definition IsValid (c : Cmd) (argValue : string) : bool * option error :=
  match Completer c with
  | None => (false, Some (errors_New "Completer must be specified for cmd"))
  | Some completer =>
    let values := completer [] in
    (fold_left (λ valid completedValue,
                  if String.eqb argValue completedValue then true else valid)
               values false,
     None)
  end.

(** ** The completer *)

(** A run of Go code either returns or panics. *)
Inductive panic := NilDereference | IndexOutOfRange.

Inductive result (A : Type) :=
  | Ok (a : A)
  | Panic (e : panic).
Arguments Ok {A} a.
Arguments Panic {A} e.

(** [iCompleter]; the fields are [cmd] and [disabled] in the source. *)
Record iCompleter := mkCompleter {
  ic_cmd : option ptr;
  ic_disabled : option (unit → bool)
}.

(** How one pass through the body of a loop of [getWords] ends: by a
    [return], by going on to the next iteration, or by a panic. *)
Inductive flow :=
  | Return (s : list string)
  | Next (s : list string)
  | Panicked (e : panic).

(** The body of [if !optCmd.IsValid(value) { ... }], the boolean result of
    [IsValid] being the one tested. *)
Definition getWords_invalid (h : heap) (prefix : string) (cmd : option ptr)
    (optCmd : ptr) (value : string) (s : list string) : M flow :=
  match CompleterWithPrefix (h optCmd) with
  | Some completer => mret (Return (completer prefix [value]))
  | None =>
    match Completer (h optCmd) with
    | Some completer => mret (Return (completer [value]))
    | None =>
      ks ← rangeMap (entries (children (h optCmd)));
      match ks with
      | (k, _) :: _ => mret (Return (s ++ [k]))
      | [] =>
        match cmd with
        | None => mret (Panicked NilDereference)
        | Some cmd =>
          ks ← rangeMap (entries (optionalChildren (h cmd)));
          mret (Next (s ++ ks.*1))
        end
      end
    end
  end.

(** [for optCmd, value := range optCmdValueMap] *)
Fixpoint getWords_loop (h : heap) (prefix : string) (cmd : option ptr)
    (kvs : list (ptr * string)) (s : list string) : M flow :=
  match kvs with
  | [] => mret (Next s)
  | (optCmd, value) :: rest =>
    if negb (IsValid (h optCmd) value).1 then
      r ← getWords_invalid h prefix cmd optCmd value s;
      match r with
      | Next s' => getWords_loop h prefix cmd rest s'
      | _ => mret r
      end
    else getWords_loop h prefix cmd rest s
  end.

Definition getWords (h : heap) (ic : iCompleter) (prefix : string)
    (w : list string) : M (result (list string)) :=
  match ic_cmd ic with
  | None => mret (Panic NilDereference)
  | Some root =>
    '(cmd, optCmdValueMap, args) ← FindCmd h (h root) w;
    kvs ← rangeMap optCmdValueMap;
    r ← getWords_loop h prefix cmd kvs [];
    match r with
    | Return s => mret (Ok s)
    | Panicked e => mret (Panic e)
    | Next s =>
      let '(cmd, args) :=
        match cmd with
        | None => (root, w)
        | Some cmd => (cmd, args)
        end in
      match CompleterWithPrefix (h cmd) with
      | Some completer => mret (Ok (completer prefix args))
      | None =>
        match Completer (h cmd) with
        | Some completer => mret (Ok (completer args))
        | None =>
          ks ← rangeMap (entries (children (h cmd)));
          ks' ← rangeMap (entries (optionalChildren (h cmd)));
          mret (Ok ((s ++ ks.*1) ++ ks'.*1))
        end
      end
    end
  end.

Section Do.

(** The tokenizer is outside the package: [shlex_Split] is
    [shlex.Split] ([None] when it reports an error) and [strings_Fields]
    the whitespace split it falls back to. *)
Variable shlex_Split : string → option (list string).
Variable strings_Fields : string → list string.

(** [len(words) > 0 && pos > 0 && line[pos-1] != ' '] *)
Definition Do_inWord (words : list string) (line : list rune) (pos : Z) : result bool :=
  if (0 <? length words)%nat && (0 <? pos) then
    match line !! Z.to_nat (pos - 1) with
    | Some r => Ok (negb (r =? 32))
    | None => Panic IndexOutOfRange
    end
  else Ok false.

(** [for _, w := range cWords { if strings.HasPrefix(w, prefix) { ... } }] *)
Definition Do_filter (prefix : string) (cWords : list string) : list (list rune) :=
  fold_left (λ suggestions w,
               if HasPrefix w prefix
               then suggestions ++ [runes_of_string (TrimPrefix w prefix)]
               else suggestions)
            cWords [].

(** The suggestions of [Do] from [cWords]: the loop, then the replacement
    of a single empty suggestion by a space. *)
Definition Do_suggestions (prefix : string) (cWords : list string) : list (list rune) :=
  let suggestions := Do_filter prefix cWords in
  if (length suggestions =? 1)%nat && negb (String.eqb prefix "")
     && String.eqb (string_of_runes (default [] (head suggestions))) ""
  then [runes_of_string " "]
  else suggestions.

Definition Do (h : heap) (ic : iCompleter) (line : list rune) (pos : Z)
    : M (result (list (list rune) * Z)) :=
  if match ic_disabled ic with
     | Some disabled => disabled ()
     | None => false
     end
  then mret (Ok ([], Z.of_nat (length line)))
  else
    let words :=
      match shlex_Split (string_of_runes line) with
      | Some w => w
      | None => strings_Fields (string_of_runes line)
      end in
    match Do_inWord words line pos with
    | Panic e => mret (Panic e)
    | Ok inWord =>
      let prefix := if inWord then List.last words "" else "" in
      r ← getWords h ic prefix
            (if inWord then take (length words - 1)%nat words else words);
      match r with
      | Panic e => mret (Panic e)
      | Ok cWords =>
        mret (Ok (Do_suggestions prefix cWords, Z.of_nat (String.length prefix)))
      end
    end.

End Do.

(** ** Resolution of a word against a child map, as a relation

    [resolves h m name r]: [r] is a result that looking [name] up among the
    children [m] may give: the child stored under [name] when there is one
    (names are tried first); otherwise some child having [name] among its
    aliases; nil only when there is neither. *)
Definition resolves (h : heap) (m : gmap string ptr) (name : string)
    (r : option ptr) : Prop :=
  match m !! name with
  | Some cmd => r = Some cmd
  | None =>
    match r with
    | Some p => ∃ k, m !! k = Some p ∧ name ∈ Aliases (h p)
    | None => ∀ k p, m !! k = Some p → name ∉ Aliases (h p)
    end
  end.

(** [name] matches some child of [m], by name or by alias. *)
Definition matches (h : heap) (m : gmap string ptr) (name : string) : Prop :=
  is_Some (m !! name) ∨ ∃ k p, m !! k = Some p ∧ name ∈ Aliases (h p).

(** The children of [m] that have [name] among their aliases. *)
Definition aliasCandidates (h : heap) (kvs : list (string * ptr)) (name : string)
    : list ptr :=
  (filter (λ kv, aliasMatches (Aliases (h kv.2)) name = true) kvs).*2.

(** ** The layout of the help text, in the words of the specification *)

(** A child map gets a listing when it has more than one entry, or exactly
    one that is not stored under "help". *)
Definition listed (m : gmap string ptr) : Prop :=
  (1 < size m)%nat ∨ (size m = 1%nat ∧ m !! "help" = None).

#[global] Instance listed_dec (m : gmap string ptr) : Decision (listed m).
Proof. unfold listed. apply _. Defined.

(** The header: the long help, else the help, else a notice that the
    command has no help; each after an empty line. *)
Definition helpHeader (c : Cmd) : string :=
  if decide (LongHelp c ≠ "") then LF +:+ LongHelp c +:+ LF
  else if decide (Help c ≠ "") then LF +:+ Help c +:+ LF
  else if decide (Name c ≠ "") then LF +:+ Name c +:+ " has no help" +:+ LF
  else "".

(** One line of a listing: name and help in tab-separated cells. *)
Definition helpRow (c : Cmd) : string :=
  TAB +:+ Name c +:+ TAB +:+ TAB +:+ TAB +:+ Help c +:+ LF.

Fixpoint helpRows (h : heap) (cmds : list ptr) : string :=
  match cmds with
  | [] => ""
  | cmd :: rest => helpRow (h cmd) +:+ helpRows h rest
  end.

(** A section: an empty line, the title, the aligned rows, an empty line. *)
Definition helpSection (tabwriter : string → string) (h : heap)
    (title : string) (cmds : list ptr) : string :=
  LF +:+ title +:+ LF +:+ tabwriter (helpRows h cmds) +:+ LF.

(** ** The suggestions of the completer, in the words of the specification

    Keep the candidates that start with the prefix, cut the prefix off each
    of them, and when exactly one is left, the prefix is not empty and what
    is left of the candidate is empty, suggest a single space instead.
    Written with the Standard Library's [String.prefix] and [substring]. *)
Definition Do_suggestions_spec (prefix : string) (cWords : list string)
    : list (list rune) :=
  let survivors := filter (λ w, String.prefix prefix w = true) cWords in
  let trimmed :=
    (λ w, substring (String.length prefix)
                    (String.length w - String.length prefix) w) <$> survivors in
  match trimmed with
  | [t] =>
    if decide (prefix ≠ "" ∧ t = "") then [runes_of_string " "]
    else [runes_of_string t]
  | _ => runes_of_string <$> trimmed
  end.

(** ** Building trees through the package's operations *)

Inductive op :=
  | OpAddCmd (c cmd : ptr)
  | OpAddOptionalCmd (c cmd : ptr)
  | OpDeleteCmd (c : ptr) (name : string).

Definition apply_op (h : heap) (o : op) : heap :=
  match o with
  | OpAddCmd c cmd => AddCmd h c cmd
  | OpAddOptionalCmd c cmd => AddOptionalCmd h c cmd
  | OpDeleteCmd c name => DeleteCmd h c name
  end.

Definition run_ops (ops : list op) (h : heap) : heap := fold_left apply_op ops h.

(** A store of nodes none of which has been given a child yet. *)
Definition fresh (h : heap) : Prop :=
  ∀ p, children (h p) = None ∧ optionalChildren (h p) = None.

(** Every child is stored under the name it carries, as [AddCmd] and
    [AddOptionalCmd] store it. *)
Definition keyed (h : heap) : Prop :=
  ∀ c k p,
    (entries (children (h c)) !! k = Some p ∨
     entries (optionalChildren (h c)) !! k = Some p) →
    Name (h p) = k.

(** A node as the shell author writes it: [&Cmd{Name: ..., Aliases: ...}]. *)
Definition newCmd (name : string) (aliases : list string) : Cmd :=
  mkCmd name aliases None "" "" None None None None.

(** A store holding the given nodes at addresses 1, 2, ... and unnamed
    nodes elsewhere. *)
Definition store (nodes : list Cmd) : heap :=
  λ p, default (newCmd "" []) (nodes !! pred (Pos.to_nat p)).

Module Examples.

(** root (1) has the required child "user" (2), alias "u", which has the
    optional child "--verbose" (3). *)
Definition user_tree : heap :=
  run_ops [OpAddCmd 1 2; OpAddOptionalCmd 2 3]
    (store [newCmd "" []; newCmd "user" ["u"]; newCmd "--verbose" []]).

(** root (1) has only the optional child "--v" (2). *)
Definition flag_tree : heap :=
  run_ops [OpAddOptionalCmd 1 2] (store [newCmd "" []; newCmd "--v" []]).

(** root (1) has the required children "a" (2), alias "b", and "b" (3). *)
Definition clash_tree : heap :=
  run_ops [OpAddCmd 1 2; OpAddCmd 1 3]
    (store [newCmd "" []; newCmd "a" ["b"]; newCmd "b" []]).

(** root (1) has the required child "a" (2), alias "b", which has the
    required child "x" (3). *)
Definition alias_tree : heap :=
  run_ops [OpAddCmd 1 2; OpAddCmd 2 3]
    (store [newCmd "" []; newCmd "a" ["b"]; newCmd "x" []]).

(** root (1) has the required child "user" (2), which has the optional
    child "--mode" (3) without completers, which has the required children
    "fast" (4) and "slow" (5). *)
Definition mode_tree : heap :=
  run_ops [OpAddCmd 1 2; OpAddOptionalCmd 2 3; OpAddCmd 3 4; OpAddCmd 3 5]
    (store [newCmd "" []; newCmd "user" []; newCmd "--mode" [];
            newCmd "fast" []; newCmd "slow" []]).

(** root (1) with the required children "stop" (2), "help" (3) and
    "start" (4), added in that order. *)
Definition service_tree : heap :=
  run_ops [OpAddCmd 1 2; OpAddCmd 1 3; OpAddCmd 1 4]
    (store [newCmd "" []; newCmd "stop" []; newCmd "help" []; newCmd "start" []]).

(** The runtime that always visits maps in [map_to_list] order, and the
    one that always visits them in the reverse order. *)
Definition forwards : sched := λ _, forward.
Definition backwards : sched := λ _, backward.

End Examples.


(** ** Further notions used to state properties of the package *)

(** No two children of [m] share an alias. *)
Definition unambiguous (h : heap) (m : gmap string ptr) : Prop :=
  ∀ name k1 p1 k2 p2,
    m !! k1 = Some p1 → m !! k2 = Some p2 →
    name ∈ Aliases (h p1) → name ∈ Aliases (h p2) → p1 = p2.

(** What [getWords] returns when it hands over to the completer of an
    optional command: the prefix-aware completer if there is one, else the
    plain one, each called with the captured value as sole argument. *)
Definition delegate (c : Cmd) (prefix value : string) : option (list string) :=
  match CompleterWithPrefix c with
  | Some completer => Some (completer prefix [value])
  | None =>
    match Completer c with
    | Some completer => Some (completer [value])
    | None => None
    end
  end.

(** The command [getWords] completes for and its arguments: the matched
    command with the remaining arguments, or the root with all the words. *)
Definition effective (root : ptr) (w : list string)
    (found : option ptr * gmap ptr string * list string) : ptr * list string :=
  match found.1.1 with
  | Some cmd => (cmd, found.2)
  | None => (root, w)
  end.

(** The state of the first loop of [FindCmd] after the words before index
    [j]: no command and no remaining arguments yet, none of those words
    matching a child of the start node; or the command matched last, by the word at some index [i0], with the words after [i0] as
    remaining arguments, none of those before [j] matching a child of it. *)
Definition scanned (h : heap) (c : Cmd) (args : list string) (j : nat)
    (st : required_st) : Prop :=
  match rs_cmd st with
  | None =>
    rs_c st = c ∧ rs_remArgs st = [] ∧
    ∀ k x, (k < j)%nat → args !! k = Some x →
           ¬ matches h (entries (children c)) x
  | Some p =>
    rs_c st = h p ∧
    ∃ i0 w c',
      args !! i0 = Some w ∧ rs_remArgs st = drop (S i0) args ∧
      resolves h (entries (children c')) w (Some p) ∧
      ∀ k x, (i0 < k < j)%nat → args !! k = Some x →
             ¬ matches h (entries (children (h p))) x
  end.

(** A capture of the optional walk over [rem] among the optional
    children [om]: the key [q] is an optional child that some word of [rem]
    names (by name or alias), and the value [v] is empty or a word of [rem]
    that names no optional child. *)
Definition key_ok (h : heap) (om : gmap string ptr) (rem : list string)
    (q : ptr) : Prop :=
  ∃ w, w ∈ rem ∧ resolves h om w (Some q).

Definition value_ok (h : heap) (om : gmap string ptr) (rem : list string)
    (v : string) : Prop :=
  v = "" ∨ (v ∈ rem ∧ ¬ matches h om v).

(** The state of the second loop of [FindCmd] holds such captures only. *)
Definition captures_ok (h : heap) (om : gmap string ptr) (rem : list string)
    (st : optional_st) : Prop :=
  (∀ q, os_optCmd st = Some q → key_ok h om rem q) ∧
  (∀ q v, os_optCmdMap st !! q = Some v →
          key_ok h om rem q ∧ value_ok h om rem v) ∧
  value_ok h om rem (os_optArgs st).

Module MoreExamples.

(** root (1) has the required child "user" (2), which has the optional
    child "--mode" (3), whose plain completer offers "fast" and "slow". *)
Definition completer_tree : heap :=
  run_ops [OpAddCmd 1 2; OpAddOptionalCmd 2 3]
    (store [newCmd "" []; newCmd "user" [];
            mkCmd "--mode" [] None "" "" (Some (λ _, ["fast"; "slow"])) None
                  None None]).

(** A tokenizer that splits at white space. *)
Definition split_words (line : string) : option (list string) :=
  Some (String.words line).

(** root (1) has the required children "status" (2), "stop" (3) and
    "start" (4). *)
Definition status_tree : heap :=
  run_ops [OpAddCmd 1 2; OpAddCmd 1 3; OpAddCmd 1 4]
    (store [newCmd "" []; newCmd "status" []; newCmd "stop" [];
            newCmd "start" []]).

(** root (1) has the required child "status" (2) only. *)
Definition lone_tree : heap :=
  run_ops [OpAddCmd 1 2] (store [newCmd "" []; newCmd "status" []]).

(** root (1) has the required children "stop" (2, alias "halt"), "start"
    (3, alias "go") and "status" (4, alias "st"); "start" has the required
    children "now" (5, alias "n") and "later" (6, alias "l"). *)
Definition aliased_tree : heap :=
  run_ops [OpAddCmd 1 2; OpAddCmd 1 3; OpAddCmd 1 4; OpAddCmd 3 5; OpAddCmd 3 6]
    (store [newCmd "" []; newCmd "stop" ["halt"]; newCmd "start" ["go"];
            newCmd "status" ["st"]; newCmd "now" ["n"]; newCmd "later" ["l"]]).

End MoreExamples.

(** The node a walk has reached: the node of the command matched last, or
    the start node when no command has been matched. *)
Definition reached (h : heap) (c : Cmd) (cmd : option ptr) : Cmd :=
  match cmd with
  | Some p => h p
  | None => c
  end.

(** ** The parts of [Do] *)

(** The words [Do] gets from the tokenizer. *)
Definition Do_words (shlex_Split : string → option (list string))
    (strings_Fields : string → list string) (line : list rune) : list string :=
  match shlex_Split (string_of_runes line) with
  | Some w => w
  | None => strings_Fields (string_of_runes line)
  end.

(** [ic.disabled != nil && ic.disabled()] *)
Definition Do_disabled (ic : iCompleter) : bool :=
  match ic_disabled ic with
  | Some disabled => disabled ()
  | None => false
  end.

(** * Properties *)

(** ** Running the monad *)

Lemma bind_run {A B} (m : M A) (f : A → M B) (s : sched) :
  (m ≫= f) s = f (m s).1 (m s).2.
Proof. unfold mbind, M_bind. by destruct (m s). Qed.

Lemma ret_run {A} (a : A) (s : sched) : (mret a : M A) s = (a, s).
Proof. reflexivity. Qed.

Lemma rangeMap_run `{Countable K} {V} (m : gmap K V) (s : sched) :
  (rangeMap m s).2 = next s ∧ (rangeMap m s).1 ≡ₚ map_to_list m.
Proof. split; [done|]. apply permute_perm. Qed.

Lemma rangeMap_empty `{Countable K} {V} (s : sched) :
  rangeMap (∅ : gmap K V) s = ([], next s).
Proof.
  destruct (rangeMap_run (∅ : gmap K V) s) as [Hs Hp].
  rewrite map_to_list_empty in Hp. apply Permutation_nil_r in Hp.
  destruct (rangeMap ∅ s); simpl in *; congruence.
Qed.

Lemma rangeMap_singleton `{Countable K} {V} (k : K) (v : V) (s : sched) :
  rangeMap ({[k := v]} : gmap K V) s = ([(k, v)], next s).
Proof.
  destruct (rangeMap_run ({[k := v]} : gmap K V) s) as [Hs Hp].
  rewrite map_to_list_singleton in Hp. apply Permutation_singleton_r in Hp.
  destruct (rangeMap _ s); simpl in *; congruence.
Qed.

(** A non-empty map is visited starting from one of its entries. *)
Lemma rangeMap_first `{Countable K} {V} (m : gmap K V) (s : sched) :
  m ≠ ∅ →
  ∃ k v rest, rangeMap m s = ((k, v) :: rest, next s) ∧ m !! k = Some v.
Proof.
  intros Hne. destruct (rangeMap_run m s) as [Hs Hp].
  destruct (rangeMap m s) as [kvs s']; simpl in *; subst s'.
  destruct kvs as [|[k v] rest].
  - symmetry in Hp. apply Permutation_nil_r, map_to_list_empty_iff in Hp. done.
  - exists k, v, rest. split; [done|].
    apply elem_of_map_to_list. rewrite <- Hp. left.
Qed.

(** ** Looking a word up among children *)

Lemma aliasMatches_elem (aliases : list string) (name : string) :
  aliasMatches aliases name = true ↔ name ∈ aliases.
Proof.
  induction aliases as [|a rest IH]; simpl.
  - split; [done|]. by intros ?%elem_of_nil.
  - destruct (String.eqb_spec a name) as [->|Hne].
    + split; [intros _; left|done].
    + rewrite IH, elem_of_cons. split; [by right|]. intros [?|?]; [congruence|done].
Qed.

Lemma findAlias_candidates (h : heap) kvs name :
  findAlias h kvs name = head (aliasCandidates h kvs name).
Proof.
  unfold aliasCandidates. induction kvs as [|[k p] rest IH]; [done|].
  simpl. rewrite filter_cons. simpl.
  destruct (aliasMatches (Aliases (h p)) name) eqn:E.
  - rewrite decide_True by done. done.
  - rewrite decide_False by congruence. done.
Qed.

Lemma aliasCandidates_perm (h : heap) kvs kvs' name :
  kvs ≡ₚ kvs' → aliasCandidates h kvs name ≡ₚ aliasCandidates h kvs' name.
Proof. intros Hp. unfold aliasCandidates. by rewrite Hp. Qed.

Lemma aliasCandidates_elem (h : heap) kvs name p :
  p ∈ aliasCandidates h kvs name ↔ ∃ k, (k, p) ∈ kvs ∧ name ∈ Aliases (h p).
Proof.
  unfold aliasCandidates. rewrite list_elem_of_fmap. split.
  - intros [[k q] [-> [Hm Hin]%list_elem_of_filter]]. simpl in *.
    exists k. by rewrite <- aliasMatches_elem.
  - intros [k [Hin Hm]]. exists (k, p). split; [done|].
    apply list_elem_of_filter. simpl. by rewrite aliasMatches_elem.
Qed.

(** The lookup shared by [findChildCmd] and [findOptionalChildCmd]: the
    result is one that [resolves] allows, and an order of the runtime is
    used up only when the name is not a key. *)
Lemma lookup_resolves (h : heap) (m : gmap string ptr) (name : string) (s : sched) :
  let run :=
    match m !! name with
    | Some cmd => mret (Some cmd)
    | None => kvs ← rangeMap m; mret (findAlias h kvs name)
    end s in
  resolves h m name run.1 ∧
  run.2 = match m !! name with Some _ => s | None => next s end.
Proof.
  unfold resolves. destruct (m !! name) as [cmd|] eqn:E; cbv zeta; [done|].
  rewrite bind_run. destruct (rangeMap_run m s) as [-> Hp]. rewrite ret_run.
  split; [|done]. cbn [fst]. rewrite findAlias_candidates.
  destruct (head _) as [p|] eqn:Hd.
  - apply head_Some_elem_of in Hd.
    apply aliasCandidates_elem in Hd as [k [Hin Hal]].
    exists k. split; [|done]. apply elem_of_map_to_list. by rewrite <- Hp.
  - apply head_None in Hd. intros k p Hk Hal.
    assert (p ∈ aliasCandidates h (rangeMap m s).1 name) as Hin.
    { apply aliasCandidates_elem. exists k. split; [|done].
      rewrite Hp. by apply elem_of_map_to_list. }
    rewrite Hd in Hin. by apply elem_of_nil in Hin.
Qed.

Lemma findChildCmd_resolves (h : heap) (c : Cmd) (name : string) (s : sched) :
  resolves h (entries (children c)) name (findChildCmd h c name s).1 ∧
  (findChildCmd h c name s).2 =
    match entries (children c) !! name with Some _ => s | None => next s end.
Proof. apply lookup_resolves. Qed.

Lemma findOptionalChildCmd_resolves (h : heap) (c : Cmd) (name : string) (s : sched) :
  resolves h (entries (optionalChildren c)) name (findOptionalChildCmd h c name s).1 ∧
  (findOptionalChildCmd h c name s).2 =
    match entries (optionalChildren c) !! name with Some _ => s | None => next s end.
Proof. apply lookup_resolves. Qed.

Lemma resolves_None (h : heap) (m : gmap string ptr) (name : string) (r : option ptr) :
  ¬ matches h m name → resolves h m name r → r = None.
Proof.
  unfold matches, resolves. intros Hno Hr.
  destruct (m !! name) as [cmd|] eqn:E; [destruct Hno; eauto|].
  destruct r as [p|]; [|done]. destruct Hr as [k [Hk Hal]].
  destruct Hno. right. eauto.
Qed.

(** When every child carrying the alias is [p], the lookup gives [p]. *)
Lemma resolves_alias (h : heap) (m : gmap string ptr) (name : string)
    (p : ptr) (r : option ptr) :
  m !! name = None →
  (∃ k, m !! k = Some p ∧ name ∈ Aliases (h p)) →
  (∀ k q, m !! k = Some q → name ∈ Aliases (h q) → q = p) →
  resolves h m name r → r = Some p.
Proof.
  unfold resolves. intros -> [k [Hk Hal]] Huniq Hr.
  destruct r as [q|].
  - destruct Hr as [k' [Hk' Hal']]. f_equal. eauto.
  - exfalso. by apply (Hr k p).
Qed.

(** Evaluation of the lookups on a given tree: the candidates are computed
    from the map. *)
Lemma lookup_alias_run (h : heap) (m : gmap string ptr) (name : string)
    (r : option ptr) (s : sched) :
  m !! name = None →
  match aliasCandidates h (map_to_list m) name with
  | [] => r = None
  | [p] => r = Some p
  | _ => False
  end →
  (kvs ← rangeMap m; mret (findAlias h kvs name)) s = (r, next s).
Proof.
  intros E Hc. rewrite bind_run. destruct (rangeMap_run m s) as [Hs Hp].
  pose proof (aliasCandidates_perm h _ _ name Hp) as Hq.
  rewrite Hs, ret_run. f_equal. rewrite findAlias_candidates.
  destruct (aliasCandidates h (map_to_list m) name) as [|p [|q l]]; [| |done].
  - apply Permutation_nil_r in Hq. by rewrite Hq.
  - apply Permutation_singleton_r in Hq. by rewrite Hq.
Qed.

Lemma findChildCmd_name (h : heap) (c : Cmd) (name : string) (p : ptr) (s : sched) :
  entries (children c) !! name = Some p →
  findChildCmd h c name s = (Some p, s).
Proof. intros E. unfold findChildCmd. by rewrite E. Qed.

Lemma findChildCmd_alias (h : heap) (c : Cmd) (name : string)
    (r : option ptr) (s : sched) :
  entries (children c) !! name = None →
  match aliasCandidates h (map_to_list (entries (children c))) name with
  | [] => r = None
  | [p] => r = Some p
  | _ => False
  end →
  findChildCmd h c name s = (r, next s).
Proof.
  intros E Hc. unfold findChildCmd. rewrite E. by apply lookup_alias_run.
Qed.

Lemma findOptionalChildCmd_name (h : heap) (c : Cmd) (name : string) (p : ptr) (s : sched) :
  entries (optionalChildren c) !! name = Some p →
  findOptionalChildCmd h c name s = (Some p, s).
Proof. intros E. unfold findOptionalChildCmd. by rewrite E. Qed.

Lemma findOptionalChildCmd_alias (h : heap) (c : Cmd) (name : string)
    (r : option ptr) (s : sched) :
  entries (optionalChildren c) !! name = None →
  match aliasCandidates h (map_to_list (entries (optionalChildren c))) name with
  | [] => r = None
  | [p] => r = Some p
  | _ => False
  end →
  findOptionalChildCmd h c name s = (r, next s).
Proof.
  intros E Hc. unfold findOptionalChildCmd. rewrite E. by apply lookup_alias_run.
Qed.

(** ** The loops of [FindCmd], one iteration at a time *)

Lemma FindCmd_required_nil h args i st s :
  FindCmd_required h args i [] st s = (st, s).
Proof. reflexivity. Qed.

Lemma FindCmd_required_cons h args i arg rest st s :
  FindCmd_required h args i (arg :: rest) st s =
    let r := findChildCmd h (rs_c st) arg s in
    FindCmd_required h args (S i) rest
      (match r.1 with
       | Some cmd => RequiredSt (Some cmd) (h cmd) (drop (S i) args)
       | None => st
       end) r.2.
Proof.
  cbn [FindCmd_required]. rewrite bind_run.
  by destruct (findChildCmd h (rs_c st) arg s).1.
Qed.

Lemma FindCmd_optional_nil h c st s :
  FindCmd_optional h c [] st s = (st, s).
Proof. reflexivity. Qed.

Lemma FindCmd_optional_cons h c arg rest st s :
  FindCmd_optional h c (arg :: rest) st s =
    let r := findOptionalChildCmd h c arg s in
    FindCmd_optional h c rest
      (match r.1 with
       | Some cmd => OptionalSt (Some cmd) (closeOut st) ""
       | None => OptionalSt (os_optCmd st) (os_optCmdMap st) arg
       end) r.2.
Proof.
  cbn [FindCmd_optional]. rewrite bind_run.
  by destruct (findOptionalChildCmd h c arg s).1.
Qed.

Lemma FindCmd_run h c args s :
  FindCmd h c args s =
    let r := FindCmd_required h args 0 args (RequiredSt None c []) s in
    let o := FindCmd_optional h (rs_c r.1) (rs_remArgs r.1) (OptionalSt None ∅ "") r.2 in
    ((rs_cmd r.1, closeOut o.1, rs_remArgs r.1), o.2).
Proof. unfold FindCmd. by rewrite !bind_run. Qed.

(** Evaluating [FindCmd] on a given tree, whatever the runtime's orders. *)
Ltac lookup_run :=
  first
    [ erewrite findChildCmd_name by (vm_compute; reflexivity)
    | erewrite findChildCmd_alias by (vm_compute; reflexivity)
    | erewrite findOptionalChildCmd_name by (vm_compute; reflexivity)
    | erewrite findOptionalChildCmd_alias by (vm_compute; reflexivity) ].

Ltac loop_run :=
  repeat
    (first
       [ rewrite FindCmd_required_cons; cbv zeta; lookup_run
       | rewrite FindCmd_required_nil
       | rewrite FindCmd_optional_cons; cbv zeta; lookup_run
       | rewrite FindCmd_optional_nil ];
     cbn [fst snd rs_cmd rs_c rs_remArgs os_optCmd os_optCmdMap os_optArgs
          closeOut drop]).

Ltac run_FindCmd := rewrite FindCmd_run; cbv zeta; loop_run.

(** ** The scenario of the specification *)

(** C1. On the tree whose root has the required child "user" with alias
    "u", which has the optional child "--verbose", [FindCmd] on
    ["u"; "--verbose"; "extra"] returns the "user" node, the optional map
    sending the "--verbose" node to "extra", and the remaining arguments
    ["--verbose"; "extra"], whatever orders the runtime picks. *)
Theorem FindCmd_alias_then_optional_value (s : sched) :
  let h := Examples.user_tree in
  (Name (h 2%positive) = "user" ∧ Aliases (h 2%positive) = ["u"] ∧
   Name (h 3%positive) = "--verbose" ∧
   entries (children (h 1%positive)) = {["user" := 2%positive]} ∧
   entries (optionalChildren (h 2%positive)) = {["--verbose" := 3%positive]}) ∧
  (FindCmd h (h 1%positive) ["u"; "--verbose"; "extra"] s).1 =
    (Some 2%positive, {[3%positive := "extra"]}, ["--verbose"; "extra"]).
Proof.
  intros h. split; [by vm_compute|].
  subst h. run_FindCmd. by rewrite insert_empty.
Qed.

(** ** When no word matches a required child *)

Lemma not_matches_run (h : heap) (m : gmap string ptr) (name : string) :
  m !! name = None →
  aliasCandidates h (map_to_list m) name = [] →
  ¬ matches h m name.
Proof.
  intros E Hc [[p Hp]|[k [p [Hk Hal]]]]; [congruence|].
  assert (p ∈ aliasCandidates h (map_to_list m) name) as Hin.
  { apply aliasCandidates_elem. exists k. by rewrite elem_of_map_to_list. }
  rewrite Hc in Hin. by apply elem_of_nil in Hin.
Qed.

Lemma findChildCmd_no_match (h : heap) (c : Cmd) (name : string) (s : sched) :
  ¬ matches h (entries (children c)) name →
  (findChildCmd h c name s).1 = None.
Proof.
  intros Hno. eapply resolves_None; [done|]. apply findChildCmd_resolves.
Qed.

Lemma FindCmd_required_no_match h args i rest st s :
  (∀ w, w ∈ rest → ¬ matches h (entries (children (rs_c st))) w) →
  (FindCmd_required h args i rest st s).1 = st.
Proof.
  revert i s. induction rest as [|arg rest IH]; intros i s Hno; [done|].
  rewrite FindCmd_required_cons. cbv zeta.
  rewrite findChildCmd_no_match by (apply Hno; left).
  apply IH. intros w Hw. apply Hno. by right.
Qed.

(** C2, as the specification words it, fails on the tree whose root has
    the optional child "--v" only: the word "--v" matches no required
    child and names an optional child of the root, yet the map returned by
    [FindCmd] is empty and does not hold that child. *)
Lemma FindCmd_root_optional_not_captured :
  let h := Examples.flag_tree in
  (∀ w, w ∈ ["--v"] → ¬ matches h (entries (children (h 1%positive))) w) ∧
  entries (optionalChildren (h 1%positive)) !! "--v" = Some 2%positive ∧
  (∀ s, (FindCmd h (h 1%positive) ["--v"] s).1 = (None, ∅, [])) ∧
  (∀ s, (FindCmd h (h 1%positive) ["--v"] s).1.1.2 !! 2%positive = None).
Proof.
  intros h.
  assert (∀ s, (FindCmd h (h 1%positive) ["--v"] s).1 = (None, ∅, [])) as Hrun.
  { intros s. subst h. by run_FindCmd. }
  split; [|split; [by vm_compute|split; [done|]]].
  - intros w ->%list_elem_of_singleton. by apply not_matches_run.
  - intros s. by rewrite Hrun.
Qed.

(** C2, amended. When no word matches a required child of the node (by
    name or by alias), [FindCmd] returns no command, no remaining
    arguments and an empty optional map: the optional walk runs over the
    remaining arguments, of which there are none. *)
Theorem FindCmd_no_required_match (h : heap) (c : Cmd) (args : list string) (s : sched) :
  (∀ w, w ∈ args → ¬ matches h (entries (children c)) w) →
  (FindCmd h c args s).1 = (None, ∅, []).
Proof.
  intros Hno. rewrite FindCmd_run. cbv zeta.
  rewrite FindCmd_required_no_match by done. done.
Qed.

Lemma FindCmd_no_required_match_witness :
  (FindCmd Examples.flag_tree (Examples.flag_tree 1%positive) ["--v"]
     Examples.forwards).1 = (None, ∅, []).
Proof.
  apply FindCmd_no_required_match.
  intros w ->%list_elem_of_singleton. apply not_matches_run; reflexivity.
Defined.

(** ** Aliases and names *)

Lemma findChildCmd_alias_of (h : heap) (c : Cmd) (b : string) (p : ptr) (s : sched) :
  entries (children c) !! b = None →
  (∃ k, entries (children c) !! k = Some p ∧ b ∈ Aliases (h p)) →
  (∀ k q, entries (children c) !! k = Some q → b ∈ Aliases (h q) → q = p) →
  findChildCmd h c b s = (Some p, next s).
Proof.
  intros E Hex Huniq.
  destruct (findChildCmd_resolves h c b s) as [Hr Hs]. rewrite E in Hs.
  apply (resolves_alias h _ b p) in Hr; [|done..].
  destruct (findChildCmd h c b s); simpl in *; congruence.
Qed.

(** After the first word, the loop reads [args] only through [args[i+1:]]. *)
Lemma FindCmd_required_head h (a b : string) xs i rest st s :
  FindCmd_required h (b :: xs) (S i) rest st s =
  FindCmd_required h (a :: xs) (S i) rest st s.
Proof.
  revert i st s. induction rest as [|arg rest IH]; intros i st s; [done|].
  rewrite !FindCmd_required_cons. cbv zeta. cbn [drop]. apply IH.
Qed.

(** C5, as the specification words it, fails on the tree whose root has
    the required children "a" (with alias "b") and "b": the word "b"
    resolves to the child named "b", the word "a" to the child named "a". *)
Lemma FindCmd_alias_shadowed_by_name :
  let h := Examples.clash_tree in
  (entries (children (h 1%positive)) !! "a" = Some 2%positive ∧
   Name (h 2%positive) = "a" ∧ Aliases (h 2%positive) = ["b"]) ∧
  (∀ s, (FindCmd h (h 1%positive) ["b"; "x"] s).1 = (Some 3%positive, ∅, ["x"])) ∧
  (∀ s, (FindCmd h (h 1%positive) ["a"; "x"] s).1 = (Some 2%positive, ∅, ["x"])).
Proof.
  intros h. split; [by vm_compute|].
  split; intros s; subst h; by run_FindCmd.
Qed.

(** C5, amended. Let the node [p] be stored under the name [a] and have
    the alias [b]. Provided no required child is stored under the name [b]
    and every required child with the alias [b] is [p], [FindCmd] on [b]
    followed by any words returns the same command, optional map and
    remaining arguments as on [a] followed by the same words, the runtime
    having used one iteration order more for the alias scan. *)
Theorem FindCmd_alias_as_name (h : heap) (c : Cmd) (a b : string) (p : ptr)
    (xs : list string) (s : sched) :
  entries (children c) !! a = Some p →
  b ∈ Aliases (h p) →
  entries (children c) !! b = None →
  (∀ k q, entries (children c) !! k = Some q → b ∈ Aliases (h q) → q = p) →
  FindCmd h c (b :: xs) s = FindCmd h c (a :: xs) (next s).
Proof.
  intros Ha Hal Hb Huniq. rewrite !FindCmd_run. cbv zeta.
  rewrite !FindCmd_required_cons. cbv zeta. cbn [rs_c].
  rewrite (findChildCmd_alias_of h c b p) by eauto.
  rewrite (findChildCmd_name h c a p) by done.
  cbn [fst snd drop]. by rewrite (FindCmd_required_head h a b).
Qed.

Lemma FindCmd_alias_as_name_witness :
  FindCmd Examples.alias_tree (Examples.alias_tree 1%positive) ["b"; "x"]
    Examples.forwards =
  FindCmd Examples.alias_tree (Examples.alias_tree 1%positive) ["a"; "x"]
    (next Examples.forwards).
Proof.
  assert (entries (children (Examples.alias_tree 1%positive)) = {["a" := 2%positive]})
    as Hm by reflexivity.
  apply (FindCmd_alias_as_name _ _ "a" "b" 2%positive).
  - reflexivity.
  - apply aliasMatches_elem. reflexivity.
  - reflexivity.
  - rewrite Hm. intros k q [_ <-]%lookup_singleton_Some _. reflexivity.
Defined.

(** ** The optional map is empty unless a command matched *)

Lemma FindCmd_required_remArgs h args i rest st s :
  (rs_cmd st = None → rs_remArgs st = []) →
  rs_cmd (FindCmd_required h args i rest st s).1 = None →
  rs_remArgs (FindCmd_required h args i rest st s).1 = [].
Proof.
  revert i st s. induction rest as [|arg rest IH]; intros i st s Hst; [done|].
  rewrite FindCmd_required_cons. cbv zeta. apply IH.
  by destruct (findChildCmd h (rs_c st) arg s).1.
Qed.

Lemma FindCmd_no_cmd h c args s :
  (FindCmd h c args s).1.1.1 = None →
  (FindCmd h c args s).1 = (None, ∅, []).
Proof.
  rewrite FindCmd_run. cbv zeta. cbn [fst]. intros Hcmd.
  rewrite (FindCmd_required_remArgs h args 0 args _ s) by done.
  by rewrite Hcmd.
Qed.

Lemma getWords_invalid_returns h prefix (cmd : ptr) optCmd value acc s e :
  (getWords_invalid h prefix (Some cmd) optCmd value acc s).1 ≠ Panicked e.
Proof.
  unfold getWords_invalid.
  destruct (CompleterWithPrefix (h optCmd)); [done|].
  destruct (Completer (h optCmd)); [done|].
  rewrite bind_run.
  destruct (rangeMap (entries (children (h optCmd))) s).1 as [|[k q] ks]; [|done].
  by rewrite bind_run.
Qed.

Lemma getWords_loop_returns h prefix (cmd : ptr) kvs acc s e :
  (getWords_loop h prefix (Some cmd) kvs acc s).1 ≠ Panicked e.
Proof.
  revert acc s. induction kvs as [|[optCmd value] kvs IH]; intros acc s; [done|].
  cbn [getWords_loop]. destruct (negb _); [|apply IH].
  rewrite bind_run.
  pose proof (getWords_invalid_returns h prefix cmd optCmd value acc s e) as Hi.
  destruct (getWords_invalid h prefix (Some cmd) optCmd value acc s).1;
    [done|apply IH|done].
Qed.

(** The statements after the loop of [getWords] always return. *)
Lemma getWords_run h ic prefix w s (root : ptr) :
  ic_cmd ic = Some root →
  let f := FindCmd h (h root) w s in
  let kvs := rangeMap f.1.1.2 f.2 in
  let r := getWords_loop h prefix f.1.1.1 kvs.1 [] kvs.2 in
  (∀ e, r.1 ≠ Panicked e) →
  ∃ words, (getWords h ic prefix w s).1 = Ok words.
Proof.
  intros Hroot f kvs r Hr. unfold getWords. rewrite Hroot, bind_run.
  fold f. destruct f.1 as [[cmd m] args] eqn:Ef. rewrite bind_run.
  subst r kvs. cbn [fst snd] in Hr.
  rewrite bind_run.
  destruct (getWords_loop h prefix cmd _ [] _).1 as [words|acc|e] eqn:El.
  - by eexists.
  - destruct cmd as [cmd|].
    + destruct (CompleterWithPrefix (h cmd)); [by eexists|].
      destruct (Completer (h cmd)); [by eexists|].
      rewrite !bind_run. by eexists.
    + destruct (CompleterWithPrefix (h root)); [by eexists|].
      destruct (Completer (h root)); [by eexists|].
      rewrite !bind_run. by eexists.
  - by destruct (Hr e).
Qed.

(** C10. Whenever [FindCmd] returns a non-empty optional map it also
    returns a command: the optional walk runs over the remaining
    arguments, which are empty until a word has matched a required child.
    Hence the loop of [getWords], which reads the optional children of the
    matched command, never dereferences a nil command: with a root set,
    [getWords] returns. *)
Theorem FindCmd_optional_map_needs_cmd (h : heap) (s : sched) :
  (∀ c args,
     (FindCmd h c args s).1.1.2 ≠ ∅ → is_Some (FindCmd h c args s).1.1.1) ∧
  (∀ ic prefix w,
     is_Some (ic_cmd ic) → ∃ words, (getWords h ic prefix w s).1 = Ok words).
Proof.
  split.
  - intros c args Hm.
    destruct (FindCmd h c args s).1.1.1 as [cmd|] eqn:Ec; [by eexists|].
    apply FindCmd_no_cmd in Ec. by rewrite Ec in Hm.
  - intros ic prefix w [root Hroot].
    apply (getWords_run h ic prefix w s root Hroot). cbv zeta. intros e.
    destruct (FindCmd h (h root) w s).1.1.1 as [cmd|] eqn:Ec.
    + apply getWords_loop_returns.
    + apply FindCmd_no_cmd in Ec. rewrite Ec. cbn [fst snd].
      by rewrite rangeMap_empty.
Qed.

Lemma FindCmd_optional_map_needs_cmd_witness :
  is_Some (FindCmd Examples.user_tree (Examples.user_tree 1%positive)
             ["u"; "--verbose"; "extra"] Examples.forwards).1.1.1 ∧
  ∃ words,
    (getWords Examples.user_tree (mkCompleter (Some 1%positive) None) ""
       ["u"; "--verbose"; "extra"] Examples.forwards).1 = Ok words.
Proof.
  split.
  - apply (proj1 (FindCmd_optional_map_needs_cmd Examples.user_tree Examples.forwards)).
    vm_compute. discriminate.
  - apply (proj2 (FindCmd_optional_map_needs_cmd Examples.user_tree Examples.forwards)).
    by eexists.
Defined.

(** ** Completion after an optional command with an invalid value *)

(** C3 does not hold of the code. On the tree where "user" has the
    optional child "--mode", without completers, whose required children
    are "fast" and "slow", completing after ["user"; "--mode"] returns one
    name only, "fast" or "slow" as the runtime orders the map: the loop
    over the children returns in its first iteration. *)
Theorem getWords_returns_first_child_only (s : sched) :
  let h := Examples.mode_tree in
  let ic := mkCompleter (Some 1%positive) None in
  (entries (optionalChildren (h 2%positive)) !! "--mode" = Some 3%positive ∧
   CompleterWithPrefix (h 3%positive) = None ∧ Completer (h 3%positive) = None ∧
   entries (children (h 3%positive)) =
     {["fast" := 4%positive; "slow" := 5%positive]}) ∧
  ∃ k, (getWords h ic "" ["user"; "--mode"] s).1 = Ok [k] ∧
       (k = "fast" ∨ k = "slow").
Proof.
  intros h ic.
  assert (entries (children (h 3%positive)) =
            {["fast" := 4%positive; "slow" := 5%positive]}) as Hm by reflexivity.
  split; [by repeat split|].
  unfold getWords. cbn [ic_cmd ic]. rewrite bind_run.
  subst h. run_FindCmd. rewrite insert_empty, bind_run, rangeMap_singleton.
  cbn [fst snd getWords_loop].
  change (IsValid (Examples.mode_tree 3%positive) "") with
    (false, Some (errors_New "Completer must be specified for cmd")).
  cbn [negb fst]. rewrite bind_run. unfold getWords_invalid.
  change (CompleterWithPrefix (Examples.mode_tree 3%positive)) with
    (@None (string → list string → list string)).
  change (Completer (Examples.mode_tree 3%positive)) with
    (@None (list string → list string)).
  rewrite !bind_run.
  destruct (rangeMap_first (entries (children (Examples.mode_tree 3%positive)))
              (next (next s))) as (k & v & rest & -> & Hk).
  { rewrite Hm. by intros ?%insert_non_empty. }
  exists k. split; [done|].
  rewrite Hm in Hk. apply lookup_insert_Some in Hk as [[<- _]|[_ Hk]]; [by left|].
  apply lookup_singleton_Some in Hk as [<- _]. by right.
Qed.

(** ** [IsValid] *)

Lemma IsValid_loop (v : string) (values : list string) (valid : bool) :
  fold_left (λ valid completedValue,
               if String.eqb v completedValue then true else valid)
            values valid = true
  ↔ valid = true ∨ v ∈ values.
Proof.
  revert valid. induction values as [|x values IH]; intros valid; simpl.
  - split; [by left|]. intros [?|?%elem_of_nil]; done.
  - rewrite IH, elem_of_cons. destruct (String.eqb_spec v x) as [->|Hne].
    + split; [intros _; right; by left|by left].
    + split; [intros [?|?]; [by left|right; by right]|].
      intros [?|[?|?]]; [by left|done|by right].
Qed.

(** C4. Without a plain completer [IsValid] returns the configuration
    error (with the boolean false); with one it returns no error, and true
    exactly when the value is among those the completer returns when
    called without arguments. *)
Theorem IsValid_spec (c : Cmd) (v : string) :
  (Completer c = None →
   IsValid c v = (false, Some (errors_New "Completer must be specified for cmd"))) ∧
  (∀ completer, Completer c = Some completer →
   ∃ valid, IsValid c v = (valid, None) ∧ (valid = true ↔ v ∈ completer [])).
Proof.
  unfold IsValid. split.
  - by intros ->.
  - intros completer ->. eexists. split; [done|].
    rewrite IsValid_loop. split; [intros [?|?]; done|by right].
Qed.

Lemma IsValid_spec_witness :
  IsValid (newCmd "--mode" []) "fast" =
    (false, Some (errors_New "Completer must be specified for cmd")) ∧
  ∃ valid,
    IsValid (mkCmd "--mode" [] None "" "" (Some (λ _, ["fast"; "slow"])) None None None)
            "fast" = (valid, None) ∧
    (valid = true ↔ "fast" ∈ ["fast"; "slow"]).
Proof.
  split.
  - apply (proj1 (IsValid_spec (newCmd "--mode" []) "fast")). reflexivity.
  - apply (proj2 (IsValid_spec
                    (mkCmd "--mode" [] None "" "" (Some (λ _, ["fast"; "slow"]))
                           None None None) "fast")
                 (λ _, ["fast"; "slow"])).
    reflexivity.
Defined.

(** ** [DeleteCmd] *)

Lemma with_children_same (c : Cmd) : with_children c (children c) = c.
Proof. by destruct c. Qed.

(** C9. [DeleteCmd h c n] removes from the required children of [c] the
    entry stored under [n] and nothing else: entries under other names stay
    (in particular a child that has [n] as an alias only), the optional
    children and the other fields of [c] stay, the other nodes stay, and
    when no required child is stored under [n] the store is unchanged. *)
Theorem DeleteCmd_frame (h : heap) (c : ptr) (n : string) :
  let h' := DeleteCmd h c n in
  entries (children (h' c)) = delete n (entries (children (h c))) ∧
  (∀ k, k ≠ n → entries (children (h' c)) !! k = entries (children (h c)) !! k) ∧
  (∀ k p, k ≠ n → entries (children (h c)) !! k = Some p →
          n ∈ Aliases (h p) → entries (children (h' c)) !! k = Some p) ∧
  (optionalChildren (h' c) = optionalChildren (h c) ∧
   Name (h' c) = Name (h c) ∧ Aliases (h' c) = Aliases (h c) ∧
   Func (h' c) = Func (h c) ∧ Help (h' c) = Help (h c) ∧
   LongHelp (h' c) = LongHelp (h c) ∧ Completer (h' c) = Completer (h c) ∧
   CompleterWithPrefix (h' c) = CompleterWithPrefix (h c)) ∧
  (∀ q, q ≠ c → h' q = h q) ∧
  (entries (children (h c)) !! n = None → ∀ q, h' q = h q).
Proof.
  intros h'. subst h'. unfold DeleteCmd.
  assert (entries (delete n <$> children (h c)) = delete n (entries (children (h c))))
    as Hd.
  { destruct (children (h c)); simpl; [done|]. by rewrite delete_empty. }
  rewrite !fn_lookup_insert. cbn [with_children children optionalChildren Name
    Aliases Func Help LongHelp Completer CompleterWithPrefix].
  rewrite Hd. split; [done|]. split; [|split; [|split; [|split]]].
  - intros k Hk. by rewrite lookup_delete_ne.
  - intros k p Hk Hp _. by rewrite lookup_delete_ne.
  - by repeat split.
  - intros q Hq. by rewrite fn_lookup_insert_ne.
  - intros Hn q. destruct (decide (q = c)) as [->|Hq].
    + rewrite fn_lookup_insert.
      replace (delete n <$> children (h c)) with (children (h c));
        [apply with_children_same|].
      destruct (children (h c)) as [m|]; simpl in *; [|done].
      by rewrite delete_id.
    + by rewrite fn_lookup_insert_ne.
Qed.

Lemma DeleteCmd_frame_witness :
  DeleteCmd Examples.service_tree 1%positive "restart" 1%positive =
    Examples.service_tree 1%positive ∧
  entries (children (DeleteCmd Examples.service_tree 1%positive "stop" 1%positive)) =
    delete "stop" (entries (children (Examples.service_tree 1%positive))).
Proof.
  split.
  - destruct (DeleteCmd_frame Examples.service_tree 1%positive "restart")
      as (_ & _ & _ & _ & _ & Habsent).
    apply Habsent. reflexivity.
  - destruct (DeleteCmd_frame Examples.service_tree 1%positive "stop")
      as (Hdel & _).
    exact Hdel.
Defined.

(** ** The order of [Children] and [OptionalChildren] *)

Section Order.

Lemma ltb_lt (a b : string) : String.ltb a b = true ↔ String_as_OT.lt a b.
Proof.
  unfold String.ltb, String_as_OT.lt.
  change (String.compare a b) with (String_as_OT.compare a b).
  destruct (String_as_OT.compare a b); split; congruence.
Qed.

Lemma ltb_asym (a b : string) : String.ltb a b = true → String.ltb b a = false.
Proof.
  intros Hab. destruct (String.ltb b a) eqn:Hba; [|done].
  apply ltb_lt in Hab, Hba.
  destruct (StrictOrder_Irreflexive a (R := String_as_OT.lt)).
  by transitivity b.
Qed.

Lemma ltb_trichotomy (a b : string) :
  String.ltb a b = true ∨ a = b ∨ String.ltb b a = true.
Proof.
  destruct (String_as_OT.compare_spec a b) as [->|?|?].
  - right. by left.
  - left. by apply ltb_lt.
  - right. right. by apply ltb_lt.
Qed.

Lemma ltb_trans (a b c : string) :
  String.ltb a b = true → String.ltb b c = true → String.ltb a c = true.
Proof. rewrite !ltb_lt. apply transitivity. Qed.

Context (h : heap).

#[local] Instance not_after_total : Total (not_after (cmdSorter_Less h)).
Proof.
  intros p q. unfold not_after, cmdSorter_Less.
  destruct (String.ltb (Name (h q)) (Name (h p))) eqn:E; [|by left].
  right. by apply ltb_asym.
Qed.

#[local] Instance not_after_trans : Transitive (not_after (cmdSorter_Less h)).
Proof.
  intros p q r. unfold not_after, cmdSorter_Less. intros Hqp Hrq.
  destruct (String.ltb (Name (h r)) (Name (h p))) eqn:Hrp; [|done].
  destruct (ltb_trichotomy (Name (h p)) (Name (h q))) as [Hpq|[Heq|Hpq]].
  - rewrite (ltb_trans _ _ _ Hrp Hpq) in Hrq. done.
  - rewrite <- Heq in Hrq. congruence.
  - congruence.
Qed.

Lemma sort_Sort_sorted (l : list ptr) :
  StronglySorted (not_after (cmdSorter_Less h)) (sort_Sort (cmdSorter_Less h) l).
Proof. apply StronglySorted_merge_sort; apply _. Qed.

Lemma sort_Sort_perm (l : list ptr) : sort_Sort (cmdSorter_Less h) l ≡ₚ l.
Proof. apply merge_sort_Permutation. Qed.

(** With pairwise distinct names, sorted means strictly increasing. *)
Lemma sorted_strict (l : list ptr) :
  NoDup ((λ p, Name (h p)) <$> l) →
  StronglySorted (not_after (cmdSorter_Less h)) l →
  StronglySorted (λ p q, cmdSorter_Less h p q = true) l.
Proof.
  induction l as [|p l IH]; intros Hnd Hs; [constructor|].
  rewrite fmap_cons in Hnd. apply list.NoDup_cons in Hnd as [Hp Hnd].
  apply StronglySorted_cons in Hs as [Hall Hs].
  constructor; [by apply IH|].
  rewrite list.Forall_forall in *. intros q Hq. specialize (Hall q Hq).
  unfold not_after, cmdSorter_Less in *.
  destruct (ltb_trichotomy (Name (h p)) (Name (h q))) as [?|[Heq|?]];
    [done| |congruence].
  destruct Hp. rewrite Heq. apply list_elem_of_fmap. by exists q.
Qed.

Lemma strict_unique (l1 l2 : list ptr) :
  StronglySorted (λ p q, cmdSorter_Less h p q = true) l1 →
  StronglySorted (λ p q, cmdSorter_Less h p q = true) l2 →
  l1 ≡ₚ l2 → l1 = l2.
Proof.
  apply StronglySorted_unique_strong. unfold cmdSorter_Less.
  intros p q _ _ Hpq Hqp. apply ltb_asym in Hpq. congruence.
Qed.

End Order.

(** *** Children are stored under their names *)

Lemma fresh_keyed (h : heap) : fresh h → keyed h.
Proof.
  intros Hf c k p. destruct (Hf c) as [-> ->]. simpl.
  rewrite lookup_empty. by intros [?|?].
Qed.

Lemma AddCmd_keyed (h : heap) (c cmd : ptr) : keyed h → keyed (AddCmd h c cmd).
Proof.
  intros Hk c' k p. unfold AddCmd.
  assert (∀ q, Name ((<[c := with_children (h c)
             (Some (<[Name (h cmd) := cmd]> (entries (children (h c)))))]> h) q)
               = Name (h q)) as Hname.
  { intros q. destruct (decide (q = c)) as [->|Hq];
      [by rewrite fn_lookup_insert|by rewrite fn_lookup_insert_ne]. }
  rewrite Hname. destruct (decide (c' = c)) as [->|Hc].
  - rewrite fn_lookup_insert. simpl.
    intros [[[<- <-]|[_ Hl]]%lookup_insert_Some|Hl]; [done|..]; apply (Hk c); eauto.
  - rewrite fn_lookup_insert_ne by done. apply Hk.
Qed.

Lemma AddOptionalCmd_keyed (h : heap) (c cmd : ptr) :
  keyed h → keyed (AddOptionalCmd h c cmd).
Proof.
  intros Hk c' k p. unfold AddOptionalCmd.
  assert (∀ q, Name ((<[c := with_optionalChildren (h c)
             (Some (<[Name (h cmd) := cmd]> (entries (optionalChildren (h c)))))]> h) q)
               = Name (h q)) as Hname.
  { intros q. destruct (decide (q = c)) as [->|Hq];
      [by rewrite fn_lookup_insert|by rewrite fn_lookup_insert_ne]. }
  rewrite Hname. destruct (decide (c' = c)) as [->|Hc].
  - rewrite fn_lookup_insert. simpl.
    intros [Hl|[[<- <-]|[_ Hl]]%lookup_insert_Some]; [|done|]; apply (Hk c); eauto.
  - rewrite fn_lookup_insert_ne by done. apply Hk.
Qed.

Lemma DeleteCmd_keyed (h : heap) (c : ptr) (name : string) :
  keyed h → keyed (DeleteCmd h c name).
Proof.
  intros Hk c' k p. unfold DeleteCmd.
  assert (∀ q, Name ((<[c := with_children (h c)
             (delete name <$> children (h c))]> h) q) = Name (h q)) as Hname.
  { intros q. destruct (decide (q = c)) as [->|Hq];
      [by rewrite fn_lookup_insert|by rewrite fn_lookup_insert_ne]. }
  rewrite Hname. destruct (decide (c' = c)) as [->|Hc].
  - rewrite fn_lookup_insert. simpl. intros [Hl|Hl]; apply (Hk c); [left|by right].
    destruct (children (h c)) as [m|]; simpl in *; [|done].
    by apply lookup_delete_Some in Hl as [_ Hl].
  - rewrite fn_lookup_insert_ne by done. apply Hk.
Qed.

Lemma run_ops_keyed (ops : list op) (h : heap) : keyed h → keyed (run_ops ops h).
Proof.
  revert h. induction ops as [|o ops IH]; intros h Hk; [done|].
  simpl. apply IH. destruct o; simpl;
    [by apply AddCmd_keyed|by apply AddOptionalCmd_keyed|by apply DeleteCmd_keyed].
Qed.

(** The sorted listing of a map whose entries are stored under their
    names: a rearrangement of the values, strictly increasing by name, and
    the same whatever order the runtime visits the map in. *)
Lemma sorted_listing (h : heap) (m : gmap string ptr) (s : sched) :
  (∀ k p, m !! k = Some p → Name (h p) = k) →
  let l := sort_Sort (cmdSorter_Less h) (rangeMap m s).1.*2 in
  l ≡ₚ (map_to_list m).*2 ∧
  StronglySorted (λ p q, cmdSorter_Less h p q = true) l ∧
  ∀ s', sort_Sort (cmdSorter_Less h) (rangeMap m s').1.*2 = l.
Proof.
  intros Hk.
  assert (∀ s0, sort_Sort (cmdSorter_Less h) (rangeMap m s0).1.*2
                  ≡ₚ (map_to_list m).*2) as Hperm.
  { intros s0. rewrite sort_Sort_perm.
    destruct (rangeMap_run m s0) as [_ Hp]. by rewrite Hp. }
  assert (∀ s0, StronglySorted (λ p q, cmdSorter_Less h p q = true)
                  (sort_Sort (cmdSorter_Less h) (rangeMap m s0).1.*2)) as Hsorted.
  { intros s0. apply sorted_strict; [|apply sort_Sort_sorted].
    rewrite (Hperm s0), <- list_fmap_compose.
    assert ((λ p, Name (h p)) ∘ snd <$> map_to_list m = (map_to_list m).*1) as ->.
    { apply list_fmap_ext. intros i [k p] Hi. simpl. apply Hk.
      apply elem_of_map_to_list. by eapply list_elem_of_lookup_2. }
    apply NoDup_fst_map_to_list. }
  intros l. split; [apply Hperm|]. split; [apply Hsorted|].
  intros s'. apply (strict_unique h); [apply Hsorted..|].
  subst l. by rewrite !Hperm.
Qed.

(** C6. After any sequence of [AddCmd], [AddOptionalCmd] and [DeleteCmd]
    on a store of nodes that had no children, [Children] and
    [OptionalChildren] of every node return the entries of the respective
    map in strictly increasing order of name, whatever the order of the
    insertions and whatever order the runtime visits the map in. *)
Theorem Children_sorted_by_name (h0 : heap) (ops : list op) (c : ptr) (s : sched) :
  fresh h0 →
  let h := run_ops ops h0 in
  let cs := (Children h (h c) s).1 in
  let os := (OptionalChildren h (h c) s).1 in
  (cs ≡ₚ (map_to_list (entries (children (h c)))).*2 ∧
   StronglySorted (λ p q, cmdSorter_Less h p q = true) cs ∧
   ∀ s', (Children h (h c) s').1 = cs) ∧
  (os ≡ₚ (map_to_list (entries (optionalChildren (h c)))).*2 ∧
   StronglySorted (λ p q, cmdSorter_Less h p q = true) os ∧
   ∀ s', (OptionalChildren h (h c) s').1 = os).
Proof.
  intros Hf h cs os.
  assert (keyed h) as Hk by (apply run_ops_keyed, fresh_keyed, Hf).
  assert (∀ (m : gmap string ptr) s0,
            ((kvs ← rangeMap m; mret (sort_Sort (cmdSorter_Less h) kvs.*2)) s0).1
                  = sort_Sort (cmdSorter_Less h) (rangeMap m s0).1.*2) as Hrun.
  { intros m s0. by rewrite bind_run. }
  subst cs os. unfold Children, OptionalChildren. split.
  - rewrite Hrun. setoid_rewrite Hrun. apply sorted_listing.
    intros k p Hl. apply (Hk c). by left.
  - rewrite Hrun. setoid_rewrite Hrun. apply sorted_listing.
    intros k p Hl. apply (Hk c). by right.
Qed.

Lemma store_fresh (nodes : list Cmd) :
  Forall (λ c, children c = None ∧ optionalChildren c = None) nodes →
  fresh (store nodes).
Proof.
  intros Hall p. unfold store.
  destruct (nodes !! pred (Pos.to_nat p)) as [c|] eqn:E; simpl; [|done].
  rewrite list.Forall_forall in Hall. apply Hall.
  by eapply list_elem_of_lookup_2.
Qed.

Lemma Children_sorted_by_name_witness :
  let h := Examples.service_tree in
  (Name (h 2%positive) = "stop" ∧ Name (h 3%positive) = "help" ∧
   Name (h 4%positive) = "start") ∧
  (Children h (h 1%positive) Examples.forwards).1 = [3; 4; 2]%positive ∧
  StronglySorted (λ p q, cmdSorter_Less h p q = true)
    (Children h (h 1%positive) Examples.forwards).1 ∧
  (Children h (h 1%positive) Examples.backwards).1 =
    (Children h (h 1%positive) Examples.forwards).1.
Proof.
  destruct (Children_sorted_by_name
              (store [newCmd "" []; newCmd "stop" []; newCmd "help" []; newCmd "start" []])
              [OpAddCmd 1 2; OpAddCmd 1 3; OpAddCmd 1 4] 1%positive
              Examples.forwards) as [(_ & Hsorted & Hsame) _].
  { apply store_fresh. repeat constructor. }
  split; [by vm_compute|]. split; [by vm_compute|].
  split; [exact Hsorted|apply Hsame].
Defined.

(** ** [HelpText] *)

Lemma app_assoc' (a b c : string) : (a +:+ b) +:+ c = a +:+ b +:+ c.
Proof.
  induction a as [|x a IH]; [done|].
  change (String x ((a +:+ b) +:+ c) = String x (a +:+ b +:+ c)). by f_equal.
Qed.

Lemma app_empty_r (a : string) : a +:+ "" = a.
Proof.
  induction a as [|x a IH]; [done|].
  change (String x (a +:+ "") = String x a). by f_equal.
Qed.

Lemma p_title (b t : string) : p b [t] = b +:+ LF +:+ t +:+ LF.
Proof.
  unfold p, Sprintln. cbn [Sprint_operands].
  change (EmptyString +:+ LF) with LF. by rewrite !app_assoc'.
Qed.

Lemma p_blank (b : string) : p b [] = b +:+ LF.
Proof. reflexivity. Qed.

Lemma write_rows_helpRows (h : heap) (cmds : list ptr) :
  write_rows h cmds = helpRows h cmds.
Proof.
  unfold write_rows.
  assert (∀ w, fold_left (λ w child, Fprintf_row w (h child)) cmds w
               = w +:+ helpRows h cmds) as Hgen; [|apply Hgen].
  induction cmds as [|cmd cmds IH]; intros w; simpl.
  - by rewrite app_empty_r.
  - rewrite IH. unfold Fprintf_row. fold (helpRow (h cmd)). apply app_assoc'.
Qed.

Lemma header_helpHeader (c : Cmd) :
  (if negb (String.eqb (LongHelp c) "") then p "" [LongHelp c]
   else if negb (String.eqb (Help c) "") then p "" [Help c]
   else if negb (String.eqb (Name c) "") then p "" [Name c; "has no help"]
   else "") = helpHeader c.
Proof.
  unfold helpHeader.
  destruct (String.eqb_spec (LongHelp c) "") as [E1|E1]; simpl.
  2: { rewrite decide_True by done. apply p_title. }
  rewrite decide_False by (by intros []).
  destruct (String.eqb_spec (Help c) "") as [E2|E2]; simpl.
  2: { rewrite decide_True by done. apply p_title. }
  rewrite decide_False by (by intros []).
  destruct (String.eqb_spec (Name c) "") as [E3|E3]; simpl.
  2: { rewrite decide_True by done. unfold p, Sprintln. cbn [Sprint_operands].
       change (EmptyString +:+ LF) with LF. by rewrite !app_assoc'. }
  by rewrite decide_False by (by intros []).
Qed.

Lemma listing_rule (m : gmap string ptr) :
  (if (1 <? size m)%nat then true
   else match m !! "help" with
        | None => (0 <? size m)%nat
        | Some _ => false
        end) = bool_decide (listed m).
Proof.
  symmetry. destruct (1 <? size m)%nat eqn:E1.
  - apply Nat.ltb_lt in E1. apply bool_decide_eq_true. by left.
  - apply Nat.ltb_ge in E1. destruct (m !! "help") as [p|] eqn:Eh.
    + apply bool_decide_eq_false. intros [?|[_ ?]]; [lia|congruence].
    + destruct (0 <? size m)%nat eqn:E0.
      * apply Nat.ltb_lt in E0. apply bool_decide_eq_true. right. split; [lia|done].
      * apply Nat.ltb_ge in E0. apply bool_decide_eq_false. intros [?|[? _]]; lia.
Qed.

Lemma hasSubcommand_listed (c : Cmd) :
  hasSubcommand c = bool_decide (listed (entries (children c))).
Proof. apply listing_rule. Qed.

Lemma Children_run (h : heap) (c : Cmd) (s : sched) :
  (Children h c s).2 = next s ∧
  (Children h c s).1 ≡ₚ (map_to_list (entries (children c))).*2 ∧
  StronglySorted (not_after (cmdSorter_Less h)) (Children h c s).1.
Proof.
  unfold Children. rewrite bind_run.
  destruct (rangeMap_run (entries (children c)) s) as [Hs Hp].
  split; [done|]. cbn [fst mret M_ret]. split; [|apply sort_Sort_sorted].
  by rewrite sort_Sort_perm, Hp.
Qed.

Lemma OptionalChildren_run (h : heap) (c : Cmd) (s : sched) :
  (OptionalChildren h c s).2 = next s ∧
  (OptionalChildren h c s).1 ≡ₚ (map_to_list (entries (optionalChildren c))).*2 ∧
  StronglySorted (not_after (cmdSorter_Less h)) (OptionalChildren h c s).1.
Proof.
  unfold OptionalChildren. rewrite bind_run.
  destruct (rangeMap_run (entries (optionalChildren c)) s) as [Hs Hp].
  split; [done|]. cbn [fst mret M_ret]. split; [|apply sort_Sort_sorted].
  by rewrite sort_Sort_perm, Hp.
Qed.

Lemma hasOptionalSubcommands_listed (h : heap) (c : Cmd) (s : sched) :
  hasOptionalSubcommands h c s =
    (bool_decide (listed (entries (optionalChildren c))), next s).
Proof.
  unfold hasOptionalSubcommands. rewrite bind_run.
  destruct (OptionalChildren_run h c s) as (-> & Hp & _).
  apply Permutation_length in Hp.
  rewrite length_fmap, length_map_to_list in Hp. rewrite Hp.
  rewrite <- listing_rule.
  destruct (1 <? size _)%nat; [done|].
  by destruct (entries (optionalChildren c) !! "help").
Qed.

(** C7. The help text is the header, then the "Commands:" section exactly
    when the node has more than one required child or exactly one that is
    not stored under "help" (no section with a sole "help" child or with no
    child), then the "Optional Commands:" section under the same rule; a
    section lists the name and help of every child, in order of name. *)
Theorem HelpText_commands_section (tabwriter : string → string) (h : heap)
    (c : Cmd) (s : sched) :
  ∃ cmds opts,
    (HelpText tabwriter h c s).1 =
      helpHeader c
      +:+ (if decide (listed (entries (children c)))
           then helpSection tabwriter h "Commands:" cmds else "")
      +:+ (if decide (listed (entries (optionalChildren c)))
           then helpSection tabwriter h "Optional Commands:" opts else "") ∧
    (cmds ≡ₚ (map_to_list (entries (children c))).*2 ∧
     StronglySorted (not_after (cmdSorter_Less h)) cmds) ∧
    (opts ≡ₚ (map_to_list (entries (optionalChildren c))).*2 ∧
     StronglySorted (not_after (cmdSorter_Less h)) opts).
Proof.
  unfold HelpText. cbv zeta. rewrite header_helpHeader, bind_run.
  rewrite hasSubcommand_listed.
  match goal with
  | |- context [(if bool_decide _ then ?a else ?b) s] =>
    set (blk := (if bool_decide (listed (entries (children c))) then a else b) s)
  end.
  assert (blk.1 = helpHeader c +:+
            (if decide (listed (entries (children c)))
             then helpSection tabwriter h "Commands:" (Children h c s).1 else ""))
    as Hblk.
  { subst blk. destruct (decide (listed (entries (children c)))) as [Hl|Hl].
    - rewrite bool_decide_eq_true_2 by done. rewrite bind_run, ret_run.
      cbn [fst]. rewrite p_blank, p_title, write_rows_helpRows.
      unfold helpSection. by rewrite !app_assoc'.
    - rewrite bool_decide_eq_false_2 by done. rewrite ret_run.
      cbn [fst]. by rewrite app_empty_r. }
  destruct (Children_run h c s) as (_ & Hcp & Hcs).
  rewrite bind_run, hasOptionalSubcommands_listed. cbn [fst snd].
  exists (Children h c s).1, (OptionalChildren h c (next blk.2)).1.
  destruct (OptionalChildren_run h c (next blk.2)) as (_ & Hop & Hos).
  split; [|done].
  destruct (decide (listed (entries (optionalChildren c)))) as [Hl|Hl].
  - rewrite bool_decide_eq_true_2 by done. rewrite bind_run, ret_run.
    cbn [fst]. rewrite p_blank, p_title, write_rows_helpRows, Hblk.
    unfold helpSection. by rewrite !app_assoc'.
  - rewrite bool_decide_eq_false_2 by done. rewrite ret_run.
    cbn [fst]. by rewrite Hblk, app_empty_r.
Qed.

(** ** The suggestions of [Do] *)

Lemma HasPrefix_prefix (w prefix : string) : HasPrefix w prefix = String.prefix prefix w.
Proof.
  revert w. induction prefix as [|a prefix IH]; intros [|b w]; simpl; try done.
  rewrite IH. destruct (Ascii.eqb_spec b a) as [->|Hne].
  - by destruct (ascii_dec a a).
  - by destruct (ascii_dec a b) as [->|].
Qed.

Lemma string_drop_substring (n : nat) (w : string) :
  string_drop n w = substring n (String.length w - n) w.
Proof.
  revert n. induction w as [|a w IH]; intros [|n]; simpl; try done.
  f_equal. specialize (IH O). simpl in IH. by rewrite Nat.sub_0_r in IH.
Qed.

Lemma Do_filter_fmap (prefix : string) (cWords : list string) :
  Do_filter prefix cWords =
    (λ w, runes_of_string (TrimPrefix w prefix))
      <$> filter (λ w, HasPrefix w prefix = true) cWords.
Proof.
  unfold Do_filter.
  assert (∀ acc,
    fold_left (λ suggestions w,
                 if HasPrefix w prefix
                 then suggestions ++ [runes_of_string (TrimPrefix w prefix)]
                 else suggestions) cWords acc =
    acc ++ ((λ w, runes_of_string (TrimPrefix w prefix))
              <$> filter (λ w, HasPrefix w prefix = true) cWords)) as Hgen;
    [|apply Hgen].
  induction cWords as [|w cWords IH]; intros acc; simpl.
  - by rewrite app_nil_r.
  - rewrite IH, filter_cons. destruct (HasPrefix w prefix) eqn:E.
    + rewrite decide_True by done. by rewrite fmap_cons, <- app_assoc.
    + by rewrite decide_False by done.
Qed.

Lemma runes_of_string_cons (a : ascii) (t : string) :
  ∃ r rs, runes_of_string (String a t) = r :: rs.
Proof. cbn [runes_of_string]. repeat case_match; eauto. Qed.

Lemma encoderune_cons (r : rune) : ∃ a t, encoderune r = String a t.
Proof. unfold encoderune, encode3, bytes. repeat case_match; simpl; eauto. Qed.

(** A string converted to runes and back is empty only if it was empty. *)
Lemma runes_round_trip_empty (t : string) :
  string_of_runes (runes_of_string t) = "" ↔ t = "".
Proof.
  split; [|by intros ->].
  destruct t as [|a t]; [done|].
  destruct (runes_of_string_cons a t) as (r & rs & ->).
  cbn [string_of_runes]. by destruct (encoderune_cons r) as (b & u & ->).
Qed.

Lemma Do_filter_trimmed (prefix : string) (cWords : list string) :
  Do_filter prefix cWords =
    runes_of_string <$>
      ((λ w, substring (String.length prefix)
                       (String.length w - String.length prefix) w)
         <$> filter (λ w, String.prefix prefix w = true) cWords).
Proof.
  rewrite Do_filter_fmap. induction cWords as [|w cWords IH]; [done|].
  rewrite !filter_cons. destruct (HasPrefix w prefix) eqn:E.
  - rewrite decide_True by done.
    rewrite decide_True by (by rewrite <- HasPrefix_prefix).
    rewrite !fmap_cons, IH. f_equal. f_equal.
    unfold TrimPrefix. rewrite E. apply string_drop_substring.
  - rewrite decide_False by done.
    rewrite decide_False by (rewrite <- HasPrefix_prefix; congruence).
    apply IH.
Qed.

Lemma Do_suggestions_refines (prefix : string) (cWords : list string) :
  Do_suggestions prefix cWords = Do_suggestions_spec prefix cWords.
Proof.
  unfold Do_suggestions, Do_suggestions_spec. cbv zeta.
  rewrite Do_filter_trimmed.
  destruct (_ <$> filter _ cWords) as [|t [|t' trimmed]]; [done| |done].
  cbn [fmap list_fmap length head default from_option id Nat.eqb andb].
  destruct (String.eqb_spec prefix "") as [->|Hp]; cbn [negb andb].
  { rewrite decide_False; [done|]. by intros [[] _]. }
  destruct (String.eqb_spec (string_of_runes (runes_of_string t)) "") as [Ht|Ht];
    rewrite runes_round_trip_empty in Ht.
  - by rewrite decide_True.
  - rewrite decide_False; [done|]. by intros [_ ?].
Qed.

(** ** The completer run on a tree *)

(** With a tokenizer that splits at white space, on the root with the
    children "stop", "help" and "start": typing "st" suggests the ends of
    "stop" and "start"; typing "help" in full suggests a space; a cursor
    past the end of the line makes [Do] panic. *)
Example Do_on_service_tree :
  let Do' := Do (λ l, Some (String.words l)) String.words Examples.service_tree
               (mkCompleter (Some 1%positive) None) in
  (Do' (runes_of_string "st") 2 Examples.forwards).1 =
    Ok (runes_of_string <$> ["op"; "art"], 2) ∧
  (Do' (runes_of_string "st") 2 Examples.backwards).1 =
    Ok (runes_of_string <$> ["art"; "op"], 2) ∧
  (Do' (runes_of_string "help") 4 Examples.forwards).1 =
    Ok ([runes_of_string " "], 4) ∧
  (Do' (runes_of_string "st") 3 Examples.forwards).1 = Panic IndexOutOfRange.
Proof. by vm_compute. Qed.

(** With the cells left as written, the help of that root lists the three
    children by name. *)
Example HelpText_on_service_tree :
  (HelpText (λ cells, cells) Examples.service_tree
     (Examples.service_tree 1%positive) Examples.forwards).1 =
    LF +:+ "Commands:" +:+ LF
    +:+ TAB +:+ "help" +:+ TAB +:+ TAB +:+ TAB +:+ LF
    +:+ TAB +:+ "start" +:+ TAB +:+ TAB +:+ TAB +:+ LF
    +:+ TAB +:+ "stop" +:+ TAB +:+ TAB +:+ TAB +:+ LF
    +:+ LF.
Proof. by vm_compute. Qed.

(** * Further properties of the package *)

(** ** [AddCmd], [AddOptionalCmd] and [DeleteCmd] *)

Lemma AddCmd_at (h : heap) (c cmd : ptr) :
  AddCmd h c cmd c =
    with_children (h c) (Some (<[Name (h cmd) := cmd]> (entries (children (h c))))).
Proof. unfold AddCmd. by rewrite fn_lookup_insert. Qed.

Lemma AddCmd_other (h : heap) (c cmd q : ptr) : q ≠ c → AddCmd h c cmd q = h q.
Proof. intros Hq. unfold AddCmd. by rewrite fn_lookup_insert_ne. Qed.

Lemma AddCmd_Name (h : heap) (c cmd q : ptr) : Name (AddCmd h c cmd q) = Name (h q).
Proof.
  destruct (decide (q = c)) as [->|Hq]; [by rewrite AddCmd_at|by rewrite AddCmd_other].
Qed.

Lemma AddOptionalCmd_at (h : heap) (c cmd : ptr) :
  AddOptionalCmd h c cmd c =
    with_optionalChildren (h c)
      (Some (<[Name (h cmd) := cmd]> (entries (optionalChildren (h c))))).
Proof. unfold AddOptionalCmd. by rewrite fn_lookup_insert. Qed.

Lemma AddOptionalCmd_other (h : heap) (c cmd q : ptr) :
  q ≠ c → AddOptionalCmd h c cmd q = h q.
Proof. intros Hq. unfold AddOptionalCmd. by rewrite fn_lookup_insert_ne. Qed.

Lemma DeleteCmd_at (h : heap) (c : ptr) (n : string) :
  DeleteCmd h c n c = with_children (h c) (delete n <$> children (h c)).
Proof. unfold DeleteCmd. by rewrite fn_lookup_insert. Qed.

Lemma DeleteCmd_other (h : heap) (c q : ptr) (n : string) :
  q ≠ c → DeleteCmd h c n q = h q.
Proof. intros Hq. unfold DeleteCmd. by rewrite fn_lookup_insert_ne. Qed.

Lemma entries_delete (m : option (gmap string ptr)) (n : string) :
  entries (delete n <$> m) = delete n (entries m).
Proof. destruct m; simpl; [done|]. by rewrite delete_empty. Qed.

(** X1. [AddCmd h c cmd] stores [cmd] among the required children of [c]
    under the name of [cmd], replacing what was stored under that name: the
    name then resolves to [cmd] whatever the aliases of the siblings; the
    entries under other names, the optional children and the other fields
    of [c], and the other nodes are unchanged. *)
Theorem AddCmd_stores_under_name (h : heap) (c cmd : ptr) :
  let h' := AddCmd h c cmd in
  children (h' c) = Some (<[Name (h cmd) := cmd]> (entries (children (h c)))) ∧
  (∀ s, findChildCmd h' (h' c) (Name (h cmd)) s = (Some cmd, s)) ∧
  (∀ k, k ≠ Name (h cmd) →
        entries (children (h' c)) !! k = entries (children (h c)) !! k) ∧
  (optionalChildren (h' c) = optionalChildren (h c) ∧
   Name (h' c) = Name (h c) ∧ Aliases (h' c) = Aliases (h c) ∧
   Func (h' c) = Func (h c) ∧ Help (h' c) = Help (h c) ∧
   LongHelp (h' c) = LongHelp (h c) ∧ Completer (h' c) = Completer (h c) ∧
   CompleterWithPrefix (h' c) = CompleterWithPrefix (h c)) ∧
  (∀ q, q ≠ c → h' q = h q).
Proof.
  intros h'. subst h'. rewrite !AddCmd_at. cbn. split; [done|].
  split; [|split; [|split]].
  - intros s. apply findChildCmd_name. cbn. apply lookup_insert_eq.
  - intros k Hk. by rewrite lookup_insert_ne.
  - by repeat split.
  - intros q Hq. by apply AddCmd_other.
Qed.

(** X2. [AddOptionalCmd h c cmd] does the same among the optional children
    of [c], leaving the required children alone. *)
Theorem AddOptionalCmd_stores_under_name (h : heap) (c cmd : ptr) :
  let h' := AddOptionalCmd h c cmd in
  optionalChildren (h' c) =
    Some (<[Name (h cmd) := cmd]> (entries (optionalChildren (h c)))) ∧
  (∀ s, findOptionalChildCmd h' (h' c) (Name (h cmd)) s = (Some cmd, s)) ∧
  (∀ k, k ≠ Name (h cmd) →
        entries (optionalChildren (h' c)) !! k =
        entries (optionalChildren (h c)) !! k) ∧
  (children (h' c) = children (h c) ∧
   Name (h' c) = Name (h c) ∧ Aliases (h' c) = Aliases (h c) ∧
   Func (h' c) = Func (h c) ∧ Help (h' c) = Help (h c) ∧
   LongHelp (h' c) = LongHelp (h c) ∧ Completer (h' c) = Completer (h c) ∧
   CompleterWithPrefix (h' c) = CompleterWithPrefix (h c)) ∧
  (∀ q, q ≠ c → h' q = h q).
Proof.
  intros h'. subst h'. rewrite !AddOptionalCmd_at. cbn. split; [done|].
  split; [|split; [|split]].
  - intros s. apply findOptionalChildCmd_name. cbn. apply lookup_insert_eq.
  - intros k Hk. by rewrite lookup_insert_ne.
  - by repeat split.
  - intros q Hq. by apply AddOptionalCmd_other.
Qed.

(** X3. Adding two commands to a node: under different names the order of
    the two calls does not matter; under the same name the second call
    wins and the first leaves no trace. *)
Theorem AddCmd_order (h : heap) (c a b : ptr) :
  (Name (h a) ≠ Name (h b) →
   ∀ q, AddCmd (AddCmd h c a) c b q = AddCmd (AddCmd h c b) c a q) ∧
  (Name (h a) = Name (h b) →
   ∀ q, AddCmd (AddCmd h c a) c b q = AddCmd h c b q).
Proof.
  split; intros Hn q.
  - destruct (decide (q = c)) as [->|Hq]; [|by rewrite !AddCmd_other].
    rewrite !AddCmd_at, !AddCmd_Name, ?AddCmd_at. cbn.
    unfold with_children. cbn. f_equal. f_equal. by apply insert_insert_ne.
  - destruct (decide (q = c)) as [->|Hq]; [|by rewrite !AddCmd_other].
    rewrite !AddCmd_at, !AddCmd_Name, ?AddCmd_at. cbn.
    unfold with_children. cbn. f_equal. f_equal. rewrite Hn.
    apply insert_insert_eq.
Qed.

Lemma AddCmd_order_witness :
  (∀ q, AddCmd (AddCmd (store [newCmd "" []; newCmd "stop" []; newCmd "start" []])
                  1 2) 1 3 q =
        AddCmd (AddCmd (store [newCmd "" []; newCmd "stop" []; newCmd "start" []])
                  1 3) 1 2 q) ∧
  (∀ q, AddCmd (AddCmd (store [newCmd "" []; newCmd "stop" ["a"]; newCmd "stop" ["b"]])
                  1 2) 1 3 q =
        AddCmd (store [newCmd "" []; newCmd "stop" ["a"]; newCmd "stop" ["b"]]) 1 3 q).
Proof.
  split.
  - apply (proj1 (AddCmd_order _ 1 2 3)). discriminate.
  - apply (proj2 (AddCmd_order _ 1 2 3)). reflexivity.
Defined.

(** X4. Deleting a name that has just been added undoes the addition: the
    required children are those from before without that name, hence the
    same as before when the name was free; and deleting twice is deleting
    once. *)
Theorem DeleteCmd_after_AddCmd (h : heap) (c cmd : ptr) (n : string) :
  entries (children (DeleteCmd (AddCmd h c cmd) c (Name (h cmd)) c)) =
    delete (Name (h cmd)) (entries (children (h c))) ∧
  (entries (children (h c)) !! Name (h cmd) = None →
   entries (children (DeleteCmd (AddCmd h c cmd) c (Name (h cmd)) c)) =
     entries (children (h c))) ∧
  (∀ q, DeleteCmd (DeleteCmd h c n) c n q = DeleteCmd h c n q).
Proof.
  assert (entries (children (DeleteCmd (AddCmd h c cmd) c (Name (h cmd)) c)) =
            delete (Name (h cmd)) (entries (children (h c)))) as Hd.
  { rewrite DeleteCmd_at, AddCmd_at. cbn. apply delete_insert_eq. }
  split; [done|]. split.
  - intros Hfree. rewrite Hd. by apply delete_id.
  - intros q. destruct (decide (q = c)) as [->|Hq]; [|by rewrite !DeleteCmd_other].
    rewrite !DeleteCmd_at. cbn. unfold with_children. cbn. f_equal.
    destruct (children (h c)) as [m|]; cbn; [|done].
    f_equal. apply delete_delete_eq.
Qed.

Lemma DeleteCmd_after_AddCmd_witness :
  entries (children (DeleteCmd (AddCmd Examples.service_tree 1 2) 1
                       (Name (Examples.service_tree 2%positive)) 1%positive)) =
    delete "stop" (entries (children (Examples.service_tree 1%positive))) ∧
  entries (children (DeleteCmd (AddCmd Examples.flag_tree 1 2) 1
                       (Name (Examples.flag_tree 2%positive)) 1%positive)) =
    entries (children (Examples.flag_tree 1%positive)).
Proof.
  split.
  - apply (proj1 (DeleteCmd_after_AddCmd Examples.service_tree 1 2 "")).
  - apply (proj1 (proj2 (DeleteCmd_after_AddCmd Examples.flag_tree 1 2 ""))).
    reflexivity.
Defined.

(** ** [findChildCmd] and [findOptionalChildCmd] *)

Lemma resolves_None_iff (h : heap) (m : gmap string ptr) (name : string) :
  resolves h m name None ↔ ¬ matches h m name.
Proof.
  unfold resolves, matches. split.
  - intros Hr [[p Hp]|(k & p & Hk & Hal)].
    + by rewrite Hp in Hr.
    + destruct (m !! name); [done|]. by apply (Hr k p).
  - intros Hno. destruct (m !! name) as [cmd|] eqn:E.
    + destruct Hno. left. eauto.
    + intros k p Hk Hal. apply Hno. right. eauto.
Qed.

Lemma resolves_Some_matches (h : heap) (m : gmap string ptr) (name : string) (p : ptr) :
  resolves h m name (Some p) → matches h m name.
Proof.
  unfold resolves, matches. destruct (m !! name) as [cmd|] eqn:E.
  - intros _. left. eauto.
  - intros (k & Hk & Hal). right. eauto.
Qed.

(** X5. The lookup of a word among the children of a node, whatever order
    the runtime visits them in: when a child is stored under the word it is
    that child, whatever the aliases; otherwise it is a child that has the
    word among its aliases; and it is nil exactly when the word is neither
    a name nor an alias of a child. The same holds of the lookup among the
    optional children. *)
Theorem findChildCmd_name_then_alias (h : heap) (c : Cmd) (name : string) (s : sched) :
  (resolves h (entries (children c)) name (findChildCmd h c name s).1 ∧
   ((findChildCmd h c name s).1 = None ↔
    ¬ matches h (entries (children c)) name)) ∧
  (resolves h (entries (optionalChildren c)) name (findOptionalChildCmd h c name s).1 ∧
   ((findOptionalChildCmd h c name s).1 = None ↔
    ¬ matches h (entries (optionalChildren c)) name)).
Proof.
  destruct (findChildCmd_resolves h c name s) as [Hr _].
  destruct (findOptionalChildCmd_resolves h c name s) as [Ho _].
  split; (split; [done|]); split.
  - intros E. apply resolves_None_iff. by rewrite <- E.
  - intros Hno. by eapply resolves_None.
  - intros E. apply resolves_None_iff. by rewrite <- E.
  - intros Hno. by eapply resolves_None.
Qed.

(** ** The scan of [FindCmd] *)

Lemma findChildCmd_miss (h : heap) (c : Cmd) (name : string) (s : sched) :
  ¬ matches h (entries (children c)) name →
  findChildCmd h c name s = (None, next s).
Proof.
  intros Hno. destruct (findChildCmd_resolves h c name s) as [Hr Hs].
  apply (resolves_None h _ _ _ Hno) in Hr.
  destruct (entries (children c) !! name) as [p|] eqn:E.
  { destruct Hno. left. eauto. }
  destruct (findChildCmd h c name s); simpl in *; congruence.
Qed.

(** Dropping the first word shifts the indices of the loop by one. *)
Lemma FindCmd_required_shift h (w : string) args i rest st s :
  FindCmd_required h (w :: args) (S i) rest st s =
  FindCmd_required h args i rest st s.
Proof.
  revert i st s. induction rest as [|arg rest IH]; intros i st s; [done|].
  rewrite !FindCmd_required_cons. cbv zeta. cbn [drop]. apply IH.
Qed.

(** X6. [FindCmd] does not stop at a word that matches no required child:
    a first word that is neither a name nor an alias of a required child is
    skipped, the rest being resolved as if it were not there (the runtime
    having used one iteration order for the alias scan); and on no words at
    all [FindCmd] returns nil, an empty map and no arguments. *)
Theorem FindCmd_skips_unmatched (h : heap) (c : Cmd) (w : string)
    (args : list string) (s : sched) :
  FindCmd h c [] s = ((None, ∅, []), s) ∧
  (¬ matches h (entries (children c)) w →
   FindCmd h c (w :: args) s = FindCmd h c args (next s)).
Proof.
  split; [done|]. intros Hno. rewrite !FindCmd_run. cbv zeta.
  rewrite FindCmd_required_cons. cbv zeta. cbn [rs_c].
  rewrite findChildCmd_miss by done. cbn [fst snd].
  by rewrite FindCmd_required_shift.
Qed.

Lemma FindCmd_skips_unmatched_witness :
  FindCmd Examples.user_tree (Examples.user_tree 1%positive)
    ["sudo"; "user"; "--verbose"] Examples.forwards =
  FindCmd Examples.user_tree (Examples.user_tree 1%positive)
    ["user"; "--verbose"] (next Examples.forwards).
Proof.
  apply (proj2 (FindCmd_skips_unmatched _ _ "sudo" ["user"; "--verbose"] _)).
  apply not_matches_run; reflexivity.
Defined.

Lemma FindCmd_required_scanned h c args i rest st s :
  drop i args = rest →
  scanned h c args i st →
  scanned h c args (length args) (FindCmd_required h args i rest st s).1.
Proof.
  revert i st s. induction rest as [|arg rest IH]; intros i st s Hrest Hst.
  - rewrite FindCmd_required_nil. cbn [fst].
    assert (length args ≤ i)%nat as Hlen.
    { apply drop_nil_inv in Hrest. lia. }
    unfold scanned in *. destruct (rs_cmd st) as [p|].
    + destruct Hst as (Hc & i0 & w & c' & Hw & Hrem & Hres & Hno).
      split; [done|]. exists i0, w, c'. repeat split; try done.
      intros k x [? ?] Hx. apply (Hno k x); [|done].
      apply lookup_lt_Some in Hx. lia.
    + destruct Hst as (Hc & Hrem & Hno). repeat split; try done.
      intros k x ? Hx. apply (Hno k x); [|done].
      apply lookup_lt_Some in Hx. lia.
  - assert (args !! i = Some arg) as Hi.
    { rewrite <- (Nat.add_0_r i), <- lookup_drop, Hrest. done. }
    assert (drop (S i) args = rest) as Hrest'.
    { rewrite (drop_S _ _ _ Hi) in Hrest. congruence. }
    rewrite FindCmd_required_cons. cbv zeta. apply IH; [done|].
    destruct (findChildCmd_resolves h (rs_c st) arg s) as [Hr _].
    destruct (findChildCmd h (rs_c st) arg s).1 as [p|] eqn:Ef.
    + unfold scanned. cbn. split; [done|].
      exists i, arg, (rs_c st). repeat split; try done.
      intros k x [? ?]. lia.
    + apply resolves_None_iff in Hr.
      unfold scanned in *. destruct (rs_cmd st) as [p|].
      * destruct Hst as (Hc & i0 & w & c' & Hw & Hrem & Hres & Hno).
        split; [done|]. exists i0, w, c'. repeat split; try done.
        intros k x [? ?] Hx. destruct (decide (k = i)) as [->|Hk].
        -- rewrite Hi in Hx. injection Hx as <-. by rewrite <- Hc.
        -- apply (Hno k x); [lia|done].
      * destruct Hst as (Hc & Hrem & Hno). repeat split; try done.
        intros k x ? Hx. destruct (decide (k = i)) as [->|Hk].
        -- rewrite Hi in Hx. injection Hx as <-. by rewrite <- Hc.
        -- apply (Hno k x); [lia|done].
Qed.

Lemma FindCmd_scanned h c args s :
  scanned h c args (length args)
    (FindCmd_required h args 0 args (RequiredSt None c []) s).1.
Proof.
  apply FindCmd_required_scanned; [done|]. repeat split; try done.
  intros k x Hk. lia.
Qed.

Lemma FindCmd_required_app h args i l1 l2 st s :
  FindCmd_required h args i (l1 ++ l2) st s =
    FindCmd_required h args (i + length l1) l2
      (FindCmd_required h args i l1 st s).1 (FindCmd_required h args i l1 st s).2.
Proof.
  revert i st s. induction l1 as [|arg l1 IH]; intros i st s.
  { cbn. by rewrite Nat.add_0_r. }
  rewrite <- app_comm_cons, !FindCmd_required_cons. cbv zeta. rewrite IH.
  cbn [length]. by rewrite Nat.add_succ_r.
Qed.

(** The loop stays at the node of the command matched last. *)
Lemma FindCmd_required_node h c args i rest st s :
  rs_c st = reached h c (rs_cmd st) →
  rs_c (FindCmd_required h args i rest st s).1 =
    reached h c (rs_cmd (FindCmd_required h args i rest st s).1).
Proof.
  revert i st s. induction rest as [|arg rest IH]; intros i st s Hst; [done|].
  rewrite FindCmd_required_cons. cbv zeta. apply IH.
  by destruct (findChildCmd h (rs_c st) arg s).1.
Qed.

(** The command and the node the loop ends with depend on the words
    scanned only, not on the slice the remaining arguments are cut from. *)
Lemma FindCmd_required_args h args args' i i' rest st st' s :
  rs_cmd st = rs_cmd st' → rs_c st = rs_c st' →
  rs_cmd (FindCmd_required h args i rest st s).1 =
    rs_cmd (FindCmd_required h args' i' rest st' s).1 ∧
  rs_c (FindCmd_required h args i rest st s).1 =
    rs_c (FindCmd_required h args' i' rest st' s).1 ∧
  (FindCmd_required h args i rest st s).2 =
    (FindCmd_required h args' i' rest st' s).2.
Proof.
  revert i i' st st' s. induction rest as [|arg rest IH];
    intros i i' st st' s Hcmd Hc; [done|].
  rewrite !FindCmd_required_cons. cbv zeta. rewrite <- Hc.
  by destruct (findChildCmd h (rs_c st) arg s).1; apply IH.
Qed.

(** The node [FindCmd] reaches on the words [pre] is the one the loop is
    at after scanning them. *)
Lemma FindCmd_reached h c args pre s :
  rs_c (FindCmd_required h args 0 pre (RequiredSt None c []) s).1 =
    reached h c (FindCmd h c pre s).1.1.1.
Proof.
  rewrite (FindCmd_required_node h c) by done. rewrite FindCmd_run. cbv zeta.
  cbn [fst]. f_equal.
  by destruct (FindCmd_required_args h args pre 0 0 pre (RequiredSt None c [])
                 (RequiredSt None c []) s eq_refl eq_refl) as (-> & _).
Qed.

Lemma FindCmd_required_last h c args l s (p : ptr) :
  rs_cmd (FindCmd_required h args 0 l (RequiredSt None c []) s).1 = Some p →
  ∃ pre w post,
    l = pre ++ w :: post ∧
    rs_remArgs (FindCmd_required h args 0 l (RequiredSt None c []) s).1 =
      drop (S (length pre)) args ∧
    resolves h
      (entries (children
                  (rs_c (FindCmd_required h args 0 pre (RequiredSt None c []) s).1)))
      w (Some p) ∧
    ∀ x, x ∈ post → ¬ matches h (entries (children (h p))) x.
Proof.
  revert p. induction l as [|x l IH] using rev_ind; intros p; [done|].
  rewrite FindCmd_required_app, FindCmd_required_cons, FindCmd_required_nil.
  cbv zeta. cbn [fst Nat.add].
  set (r := FindCmd_required h args 0 l (RequiredSt None c []) s) in *.
  destruct (findChildCmd_resolves h (rs_c r.1) x r.2) as [Hr _].
  destruct (findChildCmd h (rs_c r.1) x r.2).1 as [q|].
  - cbn. intros [= <-]. exists l, x, []. repeat split; try done.
    by intros y ?%elem_of_nil.
  - intros Hp. destruct (IH p Hp) as (pre & w & post & -> & Hrem & Hres & Hno).
    exists pre, w, (post ++ [x]). split; [by rewrite <- app_assoc|].
    split; [done|]. split; [done|].
    intros y [Hy| ->%list_elem_of_singleton]%elem_of_app; [by apply Hno|].
    apply resolves_None_iff in Hr.
    assert (rs_c r.1 = h p) as <-; [|done].
    subst r. rewrite (FindCmd_required_node h c) by done. by rewrite Hp.
Qed.

(** X7. [FindCmd] returns the command matched last: when it returns the
    command [p], the words split into some words [pre], a word that
    resolves to [p] among the required children of the node [FindCmd]
    reaches on [pre], and the remaining arguments, none of which is a name
    or an alias of a required child of [p]; and it returns nil exactly when
    no word is a name or an alias of a required child of the start node. *)
Theorem FindCmd_last_match (h : heap) (c : Cmd) (args : list string) (s : sched) :
  let found := (FindCmd h c args s).1 in
  (∀ p, found.1.1 = Some p →
     ∃ pre w,
       args = pre ++ w :: found.2 ∧
       resolves h
         (entries (children (reached h c (FindCmd h c pre s).1.1.1)))
         w (Some p) ∧
       ∀ x, x ∈ found.2 → ¬ matches h (entries (children (h p))) x) ∧
  (found.1.1 = None ↔
   ∀ x, x ∈ args → ¬ matches h (entries (children c)) x).
Proof.
  intros found. subst found. rewrite (FindCmd_run h c args). cbv zeta.
  cbn [fst snd]. split.
  - intros p Hp.
    destruct (FindCmd_required_last h c args args s p Hp)
      as (pre & w & post & Hargs & Hrem & Hres & Hno).
    assert (rs_remArgs (FindCmd_required h args 0 args (RequiredSt None c []) s).1
            = post) as ->.
    { rewrite Hrem. rewrite Hargs. rewrite cons_middle, app_assoc.
      rewrite drop_app_length'; [done|]. rewrite length_app. cbn. lia. }
    exists pre, w. split; [done|]. split; [|done].
    by rewrite <- (FindCmd_reached h c args pre s).
  - pose proof (FindCmd_scanned h c args s) as Hsc. unfold scanned in Hsc.
    destruct (rs_cmd (FindCmd_required h args 0 args (RequiredSt None c []) s).1)
      as [p|] eqn:Ec.
    + split; [done|]. intros Hall.
      rewrite FindCmd_required_no_match in Ec by done. done.
    + destruct Hsc as (Hc & Hrem & Hno). split; [|done].
      intros _ x (k & Hk)%list_elem_of_lookup. apply (Hno k x); [|done].
      by apply lookup_lt_Some in Hk.
Qed.

(** On the tree whose root has the children "a" (2, alias "b") and "b"
    (3): the word "b" resolves to 3 and nothing else does. *)
Example FindCmd_last_match_on_clash_tree :
  (FindCmd Examples.clash_tree (Examples.clash_tree 1%positive) ["x"; "b"; "y"]
     Examples.backwards).1 = (Some 3%positive, ∅, ["y"]) ∧
  ¬ resolves Examples.clash_tree
      (entries (children (Examples.clash_tree 1%positive))) "b" (Some 2%positive).
Proof. split; [reflexivity|]. unfold resolves. by vm_compute. Qed.

(** ** The optional walk of [FindCmd] *)

Lemma closeOut_ok h om rem st q v :
  captures_ok h om rem st →
  closeOut st !! q = Some v →
  key_ok h om rem q ∧ value_ok h om rem v.
Proof.
  intros (Hcmd & Hmap & Hargs). unfold closeOut.
  destruct (os_optCmd st) as [o|]; [|apply Hmap].
  intros [[<- <-]|[_ Hl]]%lookup_insert_Some; [|by apply Hmap].
  split; [by apply Hcmd|done].
Qed.

Lemma FindCmd_optional_ok h c rem rest st s :
  (∀ w, w ∈ rest → w ∈ rem) →
  captures_ok h (entries (optionalChildren c)) rem st →
  captures_ok h (entries (optionalChildren c)) rem (FindCmd_optional h c rest st s).1.
Proof.
  revert st s. induction rest as [|arg rest IH]; intros st s Hin Hst; [done|].
  rewrite FindCmd_optional_cons. cbv zeta.
  apply IH; [intros w Hw; apply Hin; by right|].
  destruct (findOptionalChildCmd_resolves h c arg s) as [Hr _].
  destruct (findOptionalChildCmd h c arg s).1 as [p|].
  - split; [|split].
    + intros q [= <-]. exists arg. split; [apply Hin; left|done].
    + intros q v. by apply closeOut_ok.
    + by left.
  - destruct Hst as (Hcmd & Hmap & Hargs). split; [done|]. split; [done|].
    right. split; [apply Hin; left|]. by apply resolves_None_iff.
Qed.

(** X8. What the optional map of [FindCmd] holds, when [FindCmd] returns
    the command [p]: every key is an optional child of [p] that some
    remaining argument names, by name or by alias; every value is empty or
    a remaining argument that names no optional child of [p]. *)
Theorem FindCmd_optional_map_sound (h : heap) (c : Cmd) (args : list string)
    (s : sched) (p q : ptr) (v : string) :
  let found := (FindCmd h c args s).1 in
  found.1.1 = Some p →
  found.1.2 !! q = Some v →
  (∃ w, w ∈ found.2 ∧ resolves h (entries (optionalChildren (h p))) w (Some q)) ∧
  (v = "" ∨ (v ∈ found.2 ∧ ¬ matches h (entries (optionalChildren (h p))) v)).
Proof.
  intros found. subst found. rewrite FindCmd_run. cbv zeta. cbn [fst snd].
  pose proof (FindCmd_scanned h c args s) as Hsc. unfold scanned in Hsc.
  intros Ec. rewrite Ec in Hsc. destruct Hsc as (-> & _).
  apply closeOut_ok. apply FindCmd_optional_ok; [done|].
  split; [done|]. split; [|by left]. intros q' v'. cbn. by rewrite lookup_empty.
Qed.

Lemma FindCmd_optional_map_sound_witness :
  let h := Examples.user_tree in
  let found := (FindCmd h (h 1%positive) ["u"; "--verbose"; "extra"]
                  Examples.forwards).1 in
  (∃ w, w ∈ found.2 ∧
        resolves h (entries (optionalChildren (h 2%positive))) w (Some 3%positive)) ∧
  ("extra" = "" ∨
   ("extra" ∈ found.2 ∧
    ¬ matches h (entries (optionalChildren (h 2%positive))) "extra")).
Proof.
  apply (FindCmd_optional_map_sound Examples.user_tree
           (Examples.user_tree 1%positive) ["u"; "--verbose"; "extra"]
           Examples.forwards 2%positive 3%positive "extra"); reflexivity.
Defined.

(** ** [FindCmd] and the order of map iteration *)

Lemma resolves_unique (h : heap) (m : gmap string ptr) (name : string)
    (r1 r2 : option ptr) :
  unambiguous h m → resolves h m name r1 → resolves h m name r2 → r1 = r2.
Proof.
  unfold resolves. intros Hu H1 H2. destruct (m !! name); [congruence|].
  destruct r1 as [p1|], r2 as [p2|]; try done.
  - destruct H1 as (k1 & Hk1 & Ha1), H2 as (k2 & Hk2 & Ha2).
    f_equal. by eapply Hu.
  - destruct H1 as (k1 & Hk1 & Ha1). by destruct (H2 k1 p1).
  - destruct H2 as (k2 & Hk2 & Ha2). by destruct (H1 k2 p2).
Qed.

Lemma unambiguous_empty (h : heap) : unambiguous h ∅.
Proof. intros name k1 p1 k2 p2 Hk1. by rewrite lookup_empty in Hk1. Qed.

Lemma unambiguous_singleton (h : heap) (k : string) (p : ptr) :
  unambiguous h {[k := p]}.
Proof.
  intros name k1 p1 k2 p2 [_ <-]%lookup_singleton_Some [_ <-]%lookup_singleton_Some.
  done.
Qed.

Lemma FindCmd_required_order h args i rest st s s' :
  (∀ q, unambiguous h (entries (children (h q)))) →
  unambiguous h (entries (children (rs_c st))) →
  (FindCmd_required h args i rest st s).1 = (FindCmd_required h args i rest st s').1.
Proof.
  intros Hall. revert i st s s'.
  induction rest as [|arg rest IH]; intros i st s s' Hst; [done|].
  rewrite !FindCmd_required_cons. cbv zeta.
  destruct (findChildCmd_resolves h (rs_c st) arg s) as [Hr _].
  destruct (findChildCmd_resolves h (rs_c st) arg s') as [Hr' _].
  rewrite (resolves_unique _ _ _ _ _ Hst Hr Hr').
  apply IH. destruct (findChildCmd h (rs_c st) arg s').1; [apply Hall|done].
Qed.

Lemma FindCmd_optional_order h c rest st s s' :
  unambiguous h (entries (optionalChildren c)) →
  (FindCmd_optional h c rest st s).1 = (FindCmd_optional h c rest st s').1.
Proof.
  intros Hc. revert st s s'.
  induction rest as [|arg rest IH]; intros st s s'; [done|].
  rewrite !FindCmd_optional_cons. cbv zeta.
  destruct (findOptionalChildCmd_resolves h c arg s) as [Hr _].
  destruct (findOptionalChildCmd_resolves h c arg s') as [Hr' _].
  rewrite (resolves_unique _ _ _ _ _ Hc Hr Hr'). apply IH.
Qed.

(** X9. When no two required children of a node share an alias, and no
    two optional children do, for the start node and for every node of the
    store, what [FindCmd] returns does not depend on the orders in which
    the runtime visits the maps. *)
Theorem FindCmd_order_independent (h : heap) (c : Cmd) (args : list string)
    (s s' : sched) :
  unambiguous h (entries (children c)) →
  unambiguous h (entries (optionalChildren c)) →
  (∀ q, unambiguous h (entries (children (h q))) ∧
        unambiguous h (entries (optionalChildren (h q)))) →
  (FindCmd h c args s).1 = (FindCmd h c args s').1.
Proof.
  intros Hc Hco Hall. rewrite !FindCmd_run. cbv zeta. cbn [fst].
  rewrite (FindCmd_required_order h args 0 args _ s s')
    by (done || intros q; apply Hall).
  set (st := (FindCmd_required h args 0 args (RequiredSt None c []) s').1).
  rewrite (FindCmd_optional_order h (rs_c st) (rs_remArgs st) _
             (FindCmd_required h args 0 args (RequiredSt None c []) s).2
             (FindCmd_required h args 0 args (RequiredSt None c []) s').2);
    [done|].
  pose proof (FindCmd_scanned h c args s') as Hsc. fold st in Hsc.
  unfold scanned in Hsc. destruct (rs_cmd st) as [p|].
  - destruct Hsc as (-> & _). apply Hall.
  - by destruct Hsc as (-> & _).
Qed.

(** No alias occurs twice among the aliases of the children: a test for
    [unambiguous] that can be run on a given map. *)
Lemma aliases_NoDup_unique (h : heap) (l : list ptr) (name : string) (p1 p2 : ptr) :
  NoDup (l ≫= λ p, Aliases (h p)) →
  p1 ∈ l → p2 ∈ l → name ∈ Aliases (h p1) → name ∈ Aliases (h p2) → p1 = p2.
Proof.
  induction l as [|x l IH]; intros Hnd H1 H2 Ha1 Ha2.
  { by apply elem_of_nil in H1. }
  cbn in Hnd. apply list.NoDup_app in Hnd as (_ & Hdisj & Hnd).
  assert (∀ q, q ∈ l → name ∈ Aliases (h q) → name ∈ Aliases (h x) → False)
    as Hcross.
  { intros q Hq Haq Hax. apply (Hdisj name Hax).
    apply list_elem_of_bind. by exists q. }
  apply elem_of_cons in H1 as [->|H1], H2 as [->|H2]; [done|..].
  - by destruct (Hcross p2).
  - by destruct (Hcross p1).
  - by apply IH.
Qed.

Lemma unambiguous_NoDup (h : heap) (m : gmap string ptr) :
  NoDup ((map_to_list m).*2 ≫= λ p, Aliases (h p)) → unambiguous h m.
Proof.
  intros Hnd name k1 p1 k2 p2 Hk1 Hk2.
  apply (aliases_NoDup_unique h _ name p1 p2 Hnd).
  - apply list_elem_of_fmap. exists (k1, p1). by rewrite elem_of_map_to_list.
  - apply list_elem_of_fmap. exists (k2, p2). by rewrite elem_of_map_to_list.
Qed.

(** On the tree whose root has three children with the aliases "halt",
    "go" and "st", one of which has two children with the aliases "n" and
    "l": the alias "go" and then the alias "n" are found by a scan of three
    and of two children, which the two runtimes visit in opposite orders. *)
Lemma FindCmd_order_independent_witness :
  let h := MoreExamples.aliased_tree in
  (rangeMap (entries (children (h 1%positive))) Examples.forwards).1 ≠
    (rangeMap (entries (children (h 1%positive))) Examples.backwards).1 ∧
  (FindCmd h (h 1%positive) ["go"; "x"; "n"; "y"] Examples.forwards).1 =
    (FindCmd h (h 1%positive) ["go"; "x"; "n"; "y"] Examples.backwards).1.
Proof.
  split; [by vm_compute|].
  assert (∀ q, unambiguous MoreExamples.aliased_tree
                 (entries (children (MoreExamples.aliased_tree q))) ∧
               unambiguous MoreExamples.aliased_tree
                 (entries (optionalChildren (MoreExamples.aliased_tree q)))) as Hall.
  { intros q. destruct (decide (q = 1%positive)) as [->|H1].
    { split; [|apply unambiguous_empty]. apply unambiguous_NoDup.
      apply (bool_decide_unpack _). by vm_compute. }
    destruct (decide (q = 3%positive)) as [->|H3].
    { split; [|apply unambiguous_empty]. apply unambiguous_NoDup.
      apply (bool_decide_unpack _). by vm_compute. }
    unfold MoreExamples.aliased_tree, run_ops. cbn [fold_left apply_op].
    rewrite !AddCmd_other by done.
    destruct (store_fresh
                [newCmd "" []; newCmd "stop" ["halt"]; newCmd "start" ["go"];
                 newCmd "status" ["st"]; newCmd "now" ["n"]; newCmd "later" ["l"]]
                ltac:(repeat constructor) q) as [-> ->].
    split; apply unambiguous_empty. }
  apply FindCmd_order_independent; [apply Hall..|exact Hall].
Defined.

(** ** [FindOptionalCmd] *)

Lemma FindOptionalCmd_loop_cons h c cmd arg rest s :
  FindOptionalCmd_loop h c cmd (arg :: rest) s =
    let r := findOptionalChildCmd h c arg s in
    match r.1 with
    | Some cmd' => FindOptionalCmd_loop h (h cmd') (Some cmd') rest r.2
    | None => ((cmd, arg :: rest), r.2)
    end.
Proof.
  cbn [FindOptionalCmd_loop]. rewrite bind_run.
  by destruct (findOptionalChildCmd h c arg s).1.
Qed.

Lemma FindOptionalCmd_loop_Some h c (p : ptr) rest s :
  is_Some (FindOptionalCmd_loop h c (Some p) rest s).1.1.
Proof.
  revert c p s. induction rest as [|arg rest IH]; intros c p s; [by eexists|].
  rewrite FindOptionalCmd_loop_cons. cbv zeta.
  destruct (findOptionalChildCmd h c arg s).1 as [p'|]; [apply IH|by eexists].
Qed.

(** The loop matches a first part of the words in full and stops at the
    first word that names no optional child of the node reached. *)
Lemma FindOptionalCmd_loop_split h c cmd rest s :
  (∀ p, cmd = Some p → c = h p) →
  let res := (FindOptionalCmd_loop h c cmd rest s).1 in
  ∃ pre,
    rest = pre ++ res.2 ∧
    (FindOptionalCmd_loop h c cmd pre s).1 = (res.1, []) ∧
    (pre = [] → res.1 = cmd) ∧
    (pre ≠ [] → is_Some res.1) ∧
    (∀ w, head res.2 = Some w →
          ¬ matches h (entries (optionalChildren (reached h c res.1))) w).
Proof.
  revert c cmd s. induction rest as [|arg rest IH]; intros c cmd s Hc.
  { exists []. cbn. repeat split; try done. }
  cbv zeta. rewrite FindOptionalCmd_loop_cons. cbv zeta.
  destruct (findOptionalChildCmd_resolves h c arg s) as [Hr _].
  destruct (findOptionalChildCmd h c arg s).1 as [p'|] eqn:Ef.
  - destruct (IH (h p') (Some p') (findOptionalChildCmd h c arg s).2)
      as (pre & Hpre & Hfull & Hnil & Hsome & Hhead).
    { by intros ? [= <-]. }
    destruct (FindOptionalCmd_loop_Some h (h p') p' rest
                (findOptionalChildCmd h c arg s).2) as [q Hq].
    exists (arg :: pre). split; [by rewrite Hpre at 1|]. split.
    { rewrite FindOptionalCmd_loop_cons. cbv zeta. by rewrite Ef. }
    split; [done|]. split; [by eauto|].
    intros w Hw. specialize (Hhead w Hw). by rewrite Hq in *.
  - exists []. cbn. split; [done|]. split; [done|]. split; [done|].
    split; [done|]. intros w [= <-]. apply resolves_None_iff in Hr.
    destruct cmd as [p|]; [|done]. cbn. by rewrite <- (Hc p).
Qed.

(** When the loop matches [l1 ++ l2] in full, it matches [l1] in full and
    goes on with [l2] from the node reached. *)
Lemma FindOptionalCmd_loop_prefix h c cmd l1 l2 s :
  (∀ p, cmd = Some p → c = h p) →
  (FindOptionalCmd_loop h c cmd (l1 ++ l2) s).1.2 = [] →
  (FindOptionalCmd_loop h c cmd l1 s).1.2 = [] ∧
  FindOptionalCmd_loop h c cmd (l1 ++ l2) s =
    FindOptionalCmd_loop h
      (reached h c (FindOptionalCmd_loop h c cmd l1 s).1.1)
      (FindOptionalCmd_loop h c cmd l1 s).1.1 l2
      (FindOptionalCmd_loop h c cmd l1 s).2.
Proof.
  revert c cmd s. induction l1 as [|arg l1 IH]; intros c cmd s Hc.
  { intros _. split; [done|]. cbn. destruct cmd as [p|]; [|done].
    cbn. by rewrite <- (Hc p). }
  rewrite <- app_comm_cons, !FindOptionalCmd_loop_cons. cbv zeta.
  destruct (findOptionalChildCmd h c arg s).1 as [p'|]; [|done].
  intros Hfull.
  destruct (IH (h p') (Some p') (findOptionalChildCmd h c arg s).2)
    as [Hl1 Heq]; [by intros ? [= <-]|done|].
  split; [done|]. rewrite Heq.
  by destruct (FindOptionalCmd_loop_Some h (h p') p' l1
                 (findOptionalChildCmd h c arg s).2) as [q ->].
Qed.

(** X10. [FindOptionalCmd] descends along the leading words while each
    names an optional child of the node reached so far, and stops at the
    first word that does not. The words are the matched words followed by
    the returned arguments. The returned command is nil exactly when no
    word was matched; otherwise [FindOptionalCmd] matches the words before
    the last matched one in full, and the returned command is what the
    last matched word resolves to among the optional children of the node
    reached on them. The first returned argument, if any, names no optional
    child of the node reached in the end. *)
Theorem FindOptionalCmd_spec (h : heap) (c : Cmd) (args : list string) (s : sched) :
  let res := (FindOptionalCmd h c args s).1 in
  ∃ pre,
    args = pre ++ res.2 ∧
    (res.1 = None ↔ pre = []) ∧
    (∀ pre' w, pre = pre' ++ [w] →
       (FindOptionalCmd h c pre' s).1.2 = [] ∧
       ∃ p, res.1 = Some p ∧
            resolves h
              (entries (optionalChildren
                          (reached h c (FindOptionalCmd h c pre' s).1.1)))
              w (Some p)) ∧
    (∀ w, head res.2 = Some w →
          ¬ matches h (entries (optionalChildren (reached h c res.1))) w).
Proof.
  unfold FindOptionalCmd.
  destruct (FindOptionalCmd_loop_split h c None args s ltac:(done))
    as (pre & Hpre & Hfull & Hnil & Hsome & Hhead).
  exists pre. split; [done|]. split; [|split; [|done]].
  - split; [|done]. intros Hnone. destruct pre as [|x pre]; [done|].
    destruct (Hsome ltac:(done)) as [p Hp]. congruence.
  - intros pre' w ->.
    destruct (FindOptionalCmd_loop_prefix h c None pre' [w] s ltac:(done))
      as [Hpre' Heq]; [by rewrite Hfull|].
    split; [done|]. rewrite Heq in Hfull.
    rewrite FindOptionalCmd_loop_cons in Hfull. cbv zeta in Hfull.
    set (r := FindOptionalCmd_loop h c None pre' s) in *.
    destruct (findOptionalChildCmd_resolves h (reached h c r.1.1) w r.2)
      as [Hr _].
    destruct (findOptionalChildCmd h (reached h c r.1.1) w r.2).1 as [p|];
      [|done].
    exists p. split; [|done]. cbn in Hfull. congruence.
Qed.

(** On the tree where "user" has the optional child "--verbose":
    [FindOptionalCmd] from "user" on ["--verbose"; "extra"; "--verbose"]
    returns the "--verbose" node and ["extra"; "--verbose"]. *)
Example FindOptionalCmd_on_user_tree :
  (FindOptionalCmd Examples.user_tree (Examples.user_tree 2%positive)
     ["--verbose"; "extra"; "--verbose"] Examples.forwards).1 =
    (Some 3%positive, ["extra"; "--verbose"]).
Proof. reflexivity. Qed.

(** ** [getWords] *)

Lemma getWords_loop_valid h prefix cmd kvs acc s :
  (∀ q v, (q, v) ∈ kvs → (IsValid (h q) v).1 = true) →
  getWords_loop h prefix cmd kvs acc s = (Next acc, s).
Proof.
  revert acc s. induction kvs as [|[q v] kvs IH]; intros acc s Hv; [done|].
  cbn [getWords_loop]. rewrite (Hv q v) by left. cbn [negb].
  apply IH. intros q' v' Hin. apply Hv. by right.
Qed.

Lemma getWords_loop_delegates h prefix cmd kvs acc s :
  (∀ q v, (q, v) ∈ kvs → is_Some (delegate (h q) prefix v)) →
  (∃ q v, (q, v) ∈ kvs ∧ (IsValid (h q) v).1 = false) →
  ∃ q v x,
    (q, v) ∈ kvs ∧ (IsValid (h q) v).1 = false ∧
    delegate (h q) prefix v = Some x ∧
    getWords_loop h prefix cmd kvs acc s = (Return x, s).
Proof.
  revert acc s. induction kvs as [|[q v] kvs IH]; intros acc s Hd Hex.
  { destruct Hex as (q & v & Hin & _). by apply elem_of_nil in Hin. }
  cbn [getWords_loop]. destruct (IsValid (h q) v).1 eqn:Ev; cbn [negb].
  - destruct (IH acc s) as (q' & v' & x & Hin & Hinv & Hx & Hrun).
    { intros q' v' Hin. apply Hd. by right. }
    { destruct Hex as (q' & v' & [[= -> ->]|Hin]%elem_of_cons & Hinv);
        [congruence|eauto]. }
    exists q', v', x. split; [by right|done].
  - destruct (Hd q v ltac:(left)) as [x Hx].
    exists q, v, x. split; [left|]. split; [done|]. split; [done|].
    rewrite bind_run. unfold getWords_invalid. unfold delegate in Hx.
    destruct (CompleterWithPrefix (h q)) as [f|]; [by injection Hx as <-|].
    destruct (Completer (h q)) as [f|]; [by injection Hx as <-|done].
Qed.

(** [getWords] in terms of what [FindCmd] found and of the loop over the
    optional map. *)
Lemma getWords_steps h ic prefix w s (root : ptr) :
  ic_cmd ic = Some root →
  let f := FindCmd h (h root) w s in
  let kvs := rangeMap f.1.1.2 f.2 in
  let r := getWords_loop h prefix f.1.1.1 kvs.1 [] kvs.2 in
  (getWords h ic prefix w s).1 =
    match r.1 with
    | Return x => Ok x
    | Panicked e => Panic e
    | Next acc =>
      let e := effective root w f.1 in
      match CompleterWithPrefix (h e.1) with
      | Some completer => Ok (completer prefix e.2)
      | None =>
        match Completer (h e.1) with
        | Some completer => Ok (completer e.2)
        | None =>
          Ok ((acc ++ (rangeMap (entries (children (h e.1))) r.2).1.*1)
                ++ (rangeMap (entries (optionalChildren (h e.1))) (next r.2)).1.*1)
        end
      end
    end.
Proof.
  intros Hroot f kvs r. unfold getWords. rewrite Hroot, bind_run.
  fold f. unfold effective. subst r kvs.
  destruct f.1 as [[cmd m] args] eqn:Ef. rewrite !bind_run. cbn [fst snd].
  destruct (getWords_loop h prefix cmd _ [] _).1 as [x|acc|e]; [done| |done].
  destruct cmd as [cmd|]; cbn [fst snd].
  - destruct (CompleterWithPrefix (h cmd)); [done|].
    destruct (Completer (h cmd)); [done|]. by rewrite !bind_run.
  - destruct (CompleterWithPrefix (h root)); [done|].
    destruct (Completer (h root)); [done|]. by rewrite !bind_run.
Qed.

Lemma rangeMap_elem `{Countable K} {V} (m : gmap K V) (s : sched) (k : K) (v : V) :
  (k, v) ∈ (rangeMap m s).1 ↔ m !! k = Some v.
Proof.
  destruct (rangeMap_run m s) as [_ Hp]. rewrite Hp. apply elem_of_map_to_list.
Qed.

(** X11. When every value captured by an optional command is valid (in
    particular when none is captured), [getWords] completes for the matched
    command and the remaining arguments, or for the root and all the words
    when no command matched: it returns what the prefix-aware completer of
    that command returns for the prefix and those arguments; without one,
    what its plain completer returns for those arguments; without either,
    the names of its required children followed by the names of its
    optional children. *)
Theorem getWords_completer_precedence (h : heap) (ic : iCompleter) (root : ptr)
    (prefix : string) (w : list string) (s : sched) :
  ic_cmd ic = Some root →
  (∀ q v, (FindCmd h (h root) w s).1.1.2 !! q = Some v →
          (IsValid (h q) v).1 = true) →
  let e := effective root w (FindCmd h (h root) w s).1 in
  match CompleterWithPrefix (h e.1) with
  | Some completer => (getWords h ic prefix w s).1 = Ok (completer prefix e.2)
  | None =>
    match Completer (h e.1) with
    | Some completer => (getWords h ic prefix w s).1 = Ok (completer e.2)
    | None =>
      ∃ ks ks',
        (getWords h ic prefix w s).1 = Ok (ks ++ ks') ∧
        ks ≡ₚ (map_to_list (entries (children (h e.1)))).*1 ∧
        ks' ≡ₚ (map_to_list (entries (optionalChildren (h e.1)))).*1
    end
  end.
Proof.
  intros Hroot Hvalid e. rewrite (getWords_steps h ic prefix w s root Hroot).
  cbv zeta. rewrite getWords_loop_valid
    by (intros q v Hin; apply Hvalid; by apply rangeMap_elem in Hin).
  cbn [fst snd]. fold e.
  destruct (CompleterWithPrefix (h e.1)); [done|].
  destruct (Completer (h e.1)); [done|].
  eexists _, _. split; [done|].
  split; [destruct (rangeMap_run (entries (children (h e.1)))
            (next (FindCmd h (h root) w s).2)) as [_ ->]
         |destruct (rangeMap_run (entries (optionalChildren (h e.1)))
            (next (next (FindCmd h (h root) w s).2))) as [_ ->]]; done.
Qed.

Lemma getWords_completer_precedence_witness :
  ∃ ks ks',
    (getWords MoreExamples.completer_tree (mkCompleter (Some 1%positive) None) ""
       ["user"; "--mode"; "fast"] Examples.forwards).1 = Ok (ks ++ ks') ∧
    ks ≡ₚ (map_to_list (entries (children (MoreExamples.completer_tree 2%positive)))).*1 ∧
    ks' ≡ₚ (map_to_list
              (entries (optionalChildren (MoreExamples.completer_tree 2%positive)))).*1.
Proof.
  apply (getWords_completer_precedence MoreExamples.completer_tree
           (mkCompleter (Some 1%positive) None) 1%positive ""
           ["user"; "--mode"; "fast"] Examples.forwards eq_refl).
  assert ((FindCmd MoreExamples.completer_tree (MoreExamples.completer_tree 1%positive)
             ["user"; "--mode"; "fast"] Examples.forwards).1.1.2
          = {[3%positive := "fast"]}) as -> by reflexivity.
  intros q v [<- <-]%lookup_singleton_Some. reflexivity.
Defined.

(** X12. When some captured value is invalid and every optional command
    that captured a value has a completer, [getWords] returns the
    completion of one of the optional commands whose value is invalid: what
    its prefix-aware completer returns for the prefix and the value or,
    without one, what its plain completer returns for the value. *)
Theorem getWords_delegates_to_option (h : heap) (ic : iCompleter) (root : ptr)
    (prefix : string) (w : list string) (s : sched) :
  ic_cmd ic = Some root →
  let m := (FindCmd h (h root) w s).1.1.2 in
  (∀ q v, m !! q = Some v → is_Some (delegate (h q) prefix v)) →
  (∃ q v, m !! q = Some v ∧ (IsValid (h q) v).1 = false) →
  ∃ q v x,
    m !! q = Some v ∧ (IsValid (h q) v).1 = false ∧
    delegate (h q) prefix v = Some x ∧
    (getWords h ic prefix w s).1 = Ok x.
Proof.
  intros Hroot m Hd (q0 & v0 & Hin0 & Hinv0).
  rewrite (getWords_steps h ic prefix w s root Hroot). cbv zeta. fold m.
  destruct (getWords_loop_delegates h prefix (FindCmd h (h root) w s).1.1.1
              (rangeMap m (FindCmd h (h root) w s).2).1 []
              (rangeMap m (FindCmd h (h root) w s).2).2)
    as (q & v & x & Hin & Hinv & Hx & ->).
  { intros q v Hin. apply Hd. by apply rangeMap_elem in Hin. }
  { exists q0, v0. split; [by apply rangeMap_elem|done]. }
  exists q, v, x. split; [by apply rangeMap_elem in Hin|done].
Qed.

Lemma getWords_delegates_to_option_witness :
  ∃ q v x,
    (FindCmd MoreExamples.completer_tree (MoreExamples.completer_tree 1%positive)
       ["user"; "--mode"; "fa"] Examples.forwards).1.1.2 !! q = Some v ∧
    (IsValid (MoreExamples.completer_tree q) v).1 = false ∧
    delegate (MoreExamples.completer_tree q) "" v = Some x ∧
    (getWords MoreExamples.completer_tree (mkCompleter (Some 1%positive) None) ""
       ["user"; "--mode"; "fa"] Examples.forwards).1 = Ok x.
Proof.
  assert ((FindCmd MoreExamples.completer_tree (MoreExamples.completer_tree 1%positive)
             ["user"; "--mode"; "fa"] Examples.forwards).1.1.2
          = {[3%positive := "fa"]}) as Hm by reflexivity.
  apply (getWords_delegates_to_option MoreExamples.completer_tree
           (mkCompleter (Some 1%positive) None) 1%positive ""
           ["user"; "--mode"; "fa"] Examples.forwards eq_refl).
  - cbv zeta. rewrite Hm. intros q v [<- <-]%lookup_singleton_Some. by eexists.
  - exists 3%positive, "fa". split; reflexivity.
Defined.

(** On that tree: after "user --mode fa" the completer of "--mode" is
    asked; after "user --mode fast" the value is valid and the optional
    children of "user" are suggested. *)
Example getWords_on_completer_tree :
  (getWords MoreExamples.completer_tree (mkCompleter (Some 1%positive) None) ""
     ["user"; "--mode"; "fa"] Examples.forwards).1 = Ok ["fast"; "slow"] ∧
  (getWords MoreExamples.completer_tree (mkCompleter (Some 1%positive) None) ""
     ["user"; "--mode"; "fast"] Examples.forwards).1 = Ok ["--mode"].
Proof. split; reflexivity. Qed.

(** ** [Do] *)

Lemma getWords_returns h ic prefix w s :
  is_Some (ic_cmd ic) → ∃ words, (getWords h ic prefix w s).1 = Ok words.
Proof.
  intros [root Hroot]. apply (getWords_run h ic prefix w s root Hroot).
  cbv zeta. intros e.
  destruct (FindCmd h (h root) w s).1.1.1 as [cmd|] eqn:Ec.
  - apply getWords_loop_returns.
  - apply FindCmd_no_cmd in Ec. rewrite Ec. cbn [fst snd].
    by rewrite rangeMap_empty.
Qed.

Lemma Do_inWord_cases (words : list string) (line : list rune) (pos : Z) :
  (Do_inWord words line pos = Panic IndexOutOfRange ∧
   words ≠ [] ∧ Z.of_nat (length line) < pos) ∨
  (∃ b, Do_inWord words line pos = Ok b ∧
        (words = [] ∨ pos ≤ Z.of_nat (length line))).
Proof.
  unfold Do_inWord. destruct words as [|x words]; cbn [length Nat.ltb Nat.leb andb].
  { right. eexists. split; [done|by left]. }
  destruct (0 <? pos) eqn:Ep.
  - apply Z.ltb_lt in Ep.
    destruct (line !! Z.to_nat (pos - 1)) as [r|] eqn:El.
    + right. eexists. split; [done|]. right.
      apply lookup_lt_Some in El. unfold rune in *. lia.
    + left. split; [done|]. split; [done|].
      apply lookup_ge_None in El. unfold rune in *. lia.
  - apply Z.ltb_ge in Ep. right. eexists. split; [done|]. right. lia.
Qed.

Lemma Do_suggestions_no_prefix (cWords : list string) :
  Do_suggestions "" cWords = runes_of_string <$> cWords.
Proof.
  unfold Do_suggestions. cbv zeta. cbn [String.eqb negb].
  rewrite andb_false_r. cbn [andb]. rewrite Do_filter_fmap.
  induction cWords as [|w cWords IH]; [done|].
  assert (HasPrefix w "" = true) as Hw by (by destruct w).
  rewrite filter_cons, decide_True by done. rewrite !fmap_cons, IH.
  unfold TrimPrefix. by rewrite Hw.
Qed.

Section DoExtras.

Variable shlex_Split : string → option (list string).
Variable strings_Fields : string → list string.

Lemma Do_steps (h : heap) (ic : iCompleter) (line : list rune) (pos : Z) (s : sched) :
  Do shlex_Split strings_Fields h ic line pos s =
    if Do_disabled ic then (Ok ([], Z.of_nat (length line)), s)
    else
      match Do_inWord (Do_words shlex_Split strings_Fields line) line pos with
      | Panic e => (Panic e, s)
      | Ok inWord =>
        let prefix := if inWord then List.last (Do_words shlex_Split strings_Fields line) "" else "" in
        let r := getWords h ic prefix
                   (if inWord
                    then take (length (Do_words shlex_Split strings_Fields line) - 1)%nat (Do_words shlex_Split strings_Fields line)
                    else Do_words shlex_Split strings_Fields line) s in
        match r.1 with
        | Panic e => (Panic e, r.2)
        | Ok cWords =>
          (Ok (Do_suggestions prefix cWords, Z.of_nat (String.length prefix)), r.2)
        end
      end.
Proof.
  unfold Do, Do_disabled. fold (Do_words shlex_Split strings_Fields line).
  destruct (match ic_disabled ic with Some d => d () | None => false end); [done|].
  destruct (Do_inWord (Do_words shlex_Split strings_Fields line) line pos) as [inWord|e]; [|done].
  cbv zeta. rewrite bind_run. by destruct (getWords h ic _ _ s).1.
Qed.

End DoExtras.

(** C8. [Do] keeps the candidates starting with the prefix and cuts the
    prefix off each of them ("status", "stop", "start" with prefix "st"
    give "atus", "op", "art"); when one suggestion is left, the prefix is
    not empty and the suggestion is empty, the result is the single
    suggestion " " (prefix "status" against "status"). Stated of [Do]
    itself: unless completion is disabled or the cursor is out of range,
    the suggestions [Do] returns are those the specification describes,
    computed from the prefix [Do] picks and from the candidates [getWords]
    returns for it, and the length is that of the prefix. *)
Theorem Do_filters_trims_and_collapses
    (shlex_Split : string → option (list string))
    (strings_Fields : string → list string)
    (h : heap) (ic : iCompleter) (line : list rune) (pos : Z) (s : sched) :
  let words := Do_words shlex_Split strings_Fields line in
  (Do shlex_Split strings_Fields h ic line pos s).1 =
    (if Do_disabled ic then Ok ([], Z.of_nat (length line))
     else
       match Do_inWord words line pos with
       | Panic e => Panic e
       | Ok inWord =>
         let prefix := if inWord then List.last words "" else "" in
         match (getWords h ic prefix
                  (if inWord then take (length words - 1)%nat words else words)
                  s).1 with
         | Panic e => Panic e
         | Ok cWords =>
           Ok (Do_suggestions_spec prefix cWords,
               Z.of_nat (String.length prefix))
         end
       end) ∧
  Do_suggestions_spec "st" ["status"; "stop"; "start"] =
    runes_of_string <$> ["atus"; "op"; "art"] ∧
  Do_suggestions_spec "status" ["status"] = [runes_of_string " "].
Proof.
  intros words. subst words. split; [|split; reflexivity].
  rewrite Do_steps. destruct (Do_disabled ic); [done|].
  destruct (Do_inWord _ line pos) as [inWord|e]; [|done]. cbv zeta.
  destruct (getWords h ic _ _ s).1 as [cWords|e]; [|done].
  cbn [fst]. by rewrite Do_suggestions_refines.
Qed.

Lemma Do_filters_trims_and_collapses_witness :
  let ic := mkCompleter (Some 1%positive) None in
  (Do MoreExamples.split_words String.words MoreExamples.status_tree ic
      (runes_of_string "st") 2 Examples.forwards).1 =
    Ok (runes_of_string <$> ["op"; "art"; "atus"], 2) ∧
  (Do MoreExamples.split_words String.words MoreExamples.status_tree ic
      (runes_of_string "st") 2 Examples.backwards).1 =
    Ok (runes_of_string <$> ["atus"; "art"; "op"], 2) ∧
  (Do MoreExamples.split_words String.words MoreExamples.lone_tree ic
      (runes_of_string "status") 6 Examples.forwards).1 =
    Ok ([runes_of_string " "], 6).
Proof.
  split; [|split].
  - rewrite (proj1 (Do_filters_trims_and_collapses MoreExamples.split_words
                      String.words MoreExamples.status_tree
                      (mkCompleter (Some 1%positive) None)
                      (runes_of_string "st") 2 Examples.forwards)).
    reflexivity.
  - rewrite (proj1 (Do_filters_trims_and_collapses MoreExamples.split_words
                      String.words MoreExamples.status_tree
                      (mkCompleter (Some 1%positive) None)
                      (runes_of_string "st") 2 Examples.backwards)).
    reflexivity.
  - rewrite (proj1 (Do_filters_trims_and_collapses MoreExamples.split_words
                      String.words MoreExamples.lone_tree
                      (mkCompleter (Some 1%positive) None)
                      (runes_of_string "status") 6 Examples.forwards)).
    reflexivity.
Defined.

(** X13. When completion is disabled [Do] returns no suggestion and the
    length of the line, without looking at the cursor or at the tree.
    Otherwise, with a root command set, [Do] returns unless the tokenizer
    gave at least one word and the cursor is beyond the end of the line;
    in that case it panics on the index of the rune before the cursor. *)
Theorem Do_returns_unless_cursor_beyond_line
    (shlex_Split : string → option (list string))
    (strings_Fields : string → list string)
    (h : heap) (ic : iCompleter) (line : list rune) (pos : Z) (s : sched) :
  let words := Do_words shlex_Split strings_Fields line in
  let run := Do shlex_Split strings_Fields h ic line pos s in
  (Do_disabled ic = true → run = (Ok ([], Z.of_nat (length line)), s)) ∧
  (Do_disabled ic = false → is_Some (ic_cmd ic) →
   ((∃ r, run.1 = Ok r) ↔ (words = [] ∨ pos ≤ Z.of_nat (length line))) ∧
   (∀ e, run.1 = Panic e → e = IndexOutOfRange)).
Proof.
  intros words run. subst words run. rewrite Do_steps. split.
  - by intros ->.
  - intros -> Hroot.
    destruct (Do_inWord_cases (Do_words shlex_Split strings_Fields line) line pos)
      as [(-> & Hne & Hlt)|(b & -> & Hok)].
    + cbn [fst]. split; [|by intros e [= <-]]. split.
      * by intros [r ?].
      * intros [?|?]; [done|lia].
    + cbv zeta.
      destruct (getWords_returns h ic
                  (if b then List.last (Do_words shlex_Split strings_Fields line) ""
                   else "")
                  (if b
                   then take (length (Do_words shlex_Split strings_Fields line) - 1)%nat
                             (Do_words shlex_Split strings_Fields line)
                   else Do_words shlex_Split strings_Fields line) s Hroot)
        as [cWords ->].
      cbn [fst]. split; [|done]. split; [done|]. by eexists.
Qed.

Lemma Do_returns_unless_cursor_beyond_line_witness :
  let ic := mkCompleter (Some 1%positive) None in
  ((∃ r, (Do MoreExamples.split_words String.words Examples.service_tree ic
            (runes_of_string "st") 2 Examples.forwards).1 = Ok r) ↔
   (Do_words MoreExamples.split_words String.words (runes_of_string "st") = [] ∨
    2 ≤ Z.of_nat (length (runes_of_string "st")))) ∧
  Do MoreExamples.split_words String.words Examples.service_tree
     (mkCompleter (Some 1%positive) (Some (λ _, true)))
     (runes_of_string "st") 7 Examples.forwards =
    (Ok ([], 2), Examples.forwards).
Proof.
  split.
  - apply (proj2 (Do_returns_unless_cursor_beyond_line MoreExamples.split_words
                    String.words Examples.service_tree
                    (mkCompleter (Some 1%positive) None)
                    (runes_of_string "st") 2 Examples.forwards)
                 eq_refl).
    by eexists.
  - apply (proj1 (Do_returns_unless_cursor_beyond_line MoreExamples.split_words
                    String.words Examples.service_tree
                    (mkCompleter (Some 1%positive) (Some (λ _, true)))
                    (runes_of_string "st") 7 Examples.forwards)
                 eq_refl).
Defined.

(** X14. Which words [Do] completes for. At a word boundary (no word, a
    cursor at the start of the line, or a space before the cursor) the
    prefix is empty, all the words go to [getWords], every candidate is
    suggested as it is and the length returned is 0. Inside a word (some
    rune other than a space before the cursor) the last word is the prefix
    and the words before it go to [getWords]. *)
Theorem Do_prefix_and_words
    (shlex_Split : string → option (list string))
    (strings_Fields : string → list string)
    (h : heap) (ic : iCompleter) (line : list rune) (pos : Z) (s : sched)
    (cWords : list string) :
  let words := Do_words shlex_Split strings_Fields line in
  let run := Do shlex_Split strings_Fields h ic line pos s in
  Do_disabled ic = false →
  (words = [] ∨ pos ≤ 0 ∨ line !! Z.to_nat (pos - 1) = Some 32 →
   (getWords h ic "" words s).1 = Ok cWords →
   run.1 = Ok (runes_of_string <$> cWords, 0)) ∧
  (∀ r, words ≠ [] → 0 < pos → line !! Z.to_nat (pos - 1) = Some r → r ≠ 32 →
   (getWords h ic (List.last words "") (take (length words - 1)%nat words) s).1
     = Ok cWords →
   run.1 = Ok (Do_suggestions (List.last words "") cWords,
               Z.of_nat (String.length (List.last words "")))).
Proof.
  intros words run Hen. subst run. rewrite Do_steps, Hen. fold words. split.
  - intros Hb Hg.
    assert (Do_inWord words line pos = Ok false) as ->.
    { unfold Do_inWord. destruct Hb as [->|[Hp|Hl]]; [done|..].
      - apply Z.ltb_ge in Hp. rewrite Hp. by rewrite andb_false_r.
      - rewrite Hl. cbn. by destruct (_ && _). }
    cbv zeta. rewrite Hg. cbn [fst]. by rewrite Do_suggestions_no_prefix.
  - intros r Hne Hp Hl Hr Hg.
    assert (Do_inWord words line pos = Ok true) as ->.
    { unfold Do_inWord. rewrite Hl. apply Z.ltb_lt in Hp. rewrite Hp.
      destruct words; [done|]. cbn. apply Z.eqb_neq in Hr. by rewrite Hr. }
    cbv zeta. by rewrite Hg.
Qed.

Lemma Do_prefix_and_words_witness :
  (Do MoreExamples.split_words String.words Examples.service_tree
      (mkCompleter (Some 1%positive) None) (runes_of_string "help ") 5
      Examples.forwards).1 = Ok (runes_of_string <$> [], 0) ∧
  (Do MoreExamples.split_words String.words Examples.service_tree
      (mkCompleter (Some 1%positive) None) (runes_of_string "x st") 4
      Examples.forwards).1 =
    Ok (Do_suggestions "st" ["stop"; "start"; "help"], 2).
Proof.
  split.
  - apply (proj1 (Do_prefix_and_words MoreExamples.split_words String.words
                    Examples.service_tree (mkCompleter (Some 1%positive) None)
                    (runes_of_string "help ") 5 Examples.forwards [] eq_refl)).
    + right. right. reflexivity.
    + reflexivity.
  - apply (proj2 (Do_prefix_and_words MoreExamples.split_words String.words
                    Examples.service_tree (mkCompleter (Some 1%positive) None)
                    (runes_of_string "x st") 4 Examples.forwards
                    ["stop"; "start"; "help"] eq_refl) 116).
    + discriminate.
    + reflexivity.
    + reflexivity.
    + discriminate.
    + reflexivity.
Defined.

(** ** Names as keys *)

(** X15. On a store built by [AddCmd], [AddOptionalCmd] and [DeleteCmd]
    from nodes without children, every child is stored under the name it
    carries, and looking that name up among the children of its parent
    gives that child, whatever aliases its siblings have and whatever order
    the runtime visits them in. *)
Theorem child_found_by_own_name (h0 : heap) (ops : list op) (c : ptr)
    (k : string) (p : ptr) (s : sched) :
  fresh h0 →
  let h := run_ops ops h0 in
  (entries (children (h c)) !! k = Some p →
   Name (h p) = k ∧ findChildCmd h (h c) (Name (h p)) s = (Some p, s)) ∧
  (entries (optionalChildren (h c)) !! k = Some p →
   Name (h p) = k ∧ findOptionalChildCmd h (h c) (Name (h p)) s = (Some p, s)).
Proof.
  intros Hf h.
  assert (keyed h) as Hk by (apply run_ops_keyed, fresh_keyed, Hf).
  split; intros Hl.
  - assert (Name (h p) = k) as Hn by (apply (Hk c); by left).
    split; [done|]. apply findChildCmd_name. by rewrite Hn.
  - assert (Name (h p) = k) as Hn by (apply (Hk c); by right).
    split; [done|]. apply findOptionalChildCmd_name. by rewrite Hn.
Qed.

Lemma child_found_by_own_name_witness :
  Name (Examples.service_tree 2%positive) = "stop" ∧
  findChildCmd Examples.service_tree (Examples.service_tree 1%positive)
    (Name (Examples.service_tree 2%positive)) Examples.backwards =
    (Some 2%positive, Examples.backwards).
Proof.
  apply (proj1 (child_found_by_own_name
                  (store [newCmd "" []; newCmd "stop" []; newCmd "help" [];
                          newCmd "start" []])
                  [OpAddCmd 1 2; OpAddCmd 1 3; OpAddCmd 1 4] 1%positive "stop"
                  2%positive Examples.backwards
                  (store_fresh [newCmd "" []; newCmd "stop" []; newCmd "help" [];
                                newCmd "start" []]
                               ltac:(repeat constructor)))).
  reflexivity.
Defined.

(** X16. On any store, [Children] lists every required child of the node
    once (as many commands as the map has entries), no command coming
    before one with a smaller name; likewise [OptionalChildren]; each uses
    one iteration order of the runtime. *)
Theorem Children_lists_every_child (h : heap) (c : Cmd) (s : sched) :
  ((Children h c s).1 ≡ₚ (map_to_list (entries (children c))).*2 ∧
   length (Children h c s).1 = size (entries (children c)) ∧
   StronglySorted (not_after (cmdSorter_Less h)) (Children h c s).1 ∧
   (Children h c s).2 = next s) ∧
  ((OptionalChildren h c s).1 ≡ₚ (map_to_list (entries (optionalChildren c))).*2 ∧
   length (OptionalChildren h c s).1 = size (entries (optionalChildren c)) ∧
   StronglySorted (not_after (cmdSorter_Less h)) (OptionalChildren h c s).1 ∧
   (OptionalChildren h c s).2 = next s).
Proof.
  destruct (Children_run h c s) as (Hs & Hp & Hsorted).
  destruct (OptionalChildren_run h c s) as (Hs' & Hp' & Hsorted').
  split; (split; [done|]); (split; [|done]).
  - by rewrite Hp, length_fmap, length_map_to_list.
  - by rewrite Hp', length_fmap, length_map_to_list.
Qed.

(** X17. After [DeleteCmd h c n] the word [n] still resolves among the
    required children of [c] exactly when one of the children that are
    left has [n] among its aliases. *)
Theorem DeleteCmd_then_lookup (h : heap) (c : ptr) (n : string) (s : sched) :
  let h' := DeleteCmd h c n in
  (findChildCmd h' (h' c) n s).1 = None ↔
  ∀ k p, k ≠ n → entries (children (h c)) !! k = Some p → n ∉ Aliases (h p).
Proof.
  intros h'.
  assert (∀ q, Aliases (h' q) = Aliases (h q)) as Hal.
  { intros q. subst h'. destruct (decide (q = c)) as [->|Hq];
      [by rewrite DeleteCmd_at|by rewrite DeleteCmd_other]. }
  assert (entries (children (h' c)) = delete n (entries (children (h c)))) as Hd.
  { subst h'. rewrite DeleteCmd_at. cbn. apply entries_delete. }
  destruct (findChildCmd_resolves h' (h' c) n s) as [Hr _].
  unfold resolves in Hr. rewrite Hd, lookup_delete_eq in Hr.
  destruct (findChildCmd h' (h' c) n s).1 as [p|].
  - destruct Hr as (k & [Hk Hl]%lookup_delete_Some & Hin). rewrite Hal in Hin.
    split; [done|]. intros Hno. by destruct (Hno k p).
  - split; [|done]. intros _ k p Hk Hl Hin.
    apply (Hr k p); [by rewrite lookup_delete_ne|by rewrite Hal].
Qed.

(** ** Descending with [FindCmd] *)

Lemma FindCmd_required_from_Some h args i rest st s :
  is_Some (rs_cmd st) →
  is_Some (rs_cmd (FindCmd_required h args i rest st s).1).
Proof.
  revert i st s. induction rest as [|arg rest IH]; intros i st s Hst; [done|].
  rewrite FindCmd_required_cons. cbv zeta. apply IH.
  destruct (findChildCmd h (rs_c st) arg s).1; [by eexists|done].
Qed.

Lemma FindCmd_required_from h args i rest st st' s :
  rs_c st = rs_c st' →
  let r := FindCmd_required h args i rest st s in
  let r' := FindCmd_required h args i rest st' s in
  r.2 = r'.2 ∧
  ((r.1 = r'.1 ∧ is_Some (rs_cmd r.1)) ∨ (r.1 = st ∧ r'.1 = st')).
Proof.
  revert i st st' s. induction rest as [|arg rest IH]; intros i st st' s Hc.
  { cbn. split; [done|by right]. }
  cbv zeta. rewrite !FindCmd_required_cons. cbv zeta. rewrite <- Hc.
  destruct (findChildCmd h (rs_c st) arg s).1 as [cmd|]; [|by apply IH].
  split; [done|]. left. split; [done|].
  apply FindCmd_required_from_Some. by eexists.
Qed.

(** X18. Descending by a name: when the first word is the name of the
    required child [p], [FindCmd] goes on from [p] with the other words.
    If some later word matches below [p], the result is the one of
    [FindCmd] started at [p] on the other words; if none does, [p] is the
    command returned and the other words are the remaining arguments. *)
Theorem FindCmd_descends (h : heap) (c : Cmd) (a : string) (xs : list string)
    (p : ptr) (s : sched) :
  entries (children c) !! a = Some p →
  match (FindCmd h (h p) xs s).1.1.1 with
  | Some _ => FindCmd h c (a :: xs) s = FindCmd h (h p) xs s
  | None =>
    (FindCmd h c (a :: xs) s).1.1.1 = Some p ∧ (FindCmd h c (a :: xs) s).1.2 = xs
  end.
Proof.
  intros Ha. rewrite !FindCmd_run. cbv zeta.
  rewrite FindCmd_required_cons. cbv zeta. cbn [rs_c].
  rewrite (findChildCmd_name h c a p) by done. cbn [fst snd drop].
  rewrite FindCmd_required_shift, drop_0.
  destruct (FindCmd_required_from h xs 0 xs (RequiredSt (Some p) (h p) xs)
              (RequiredSt None (h p) []) s eq_refl) as [Hs [[Hr Hsome]|[Hr Hr']]].
  - rewrite <- Hr, <- Hs. destruct Hsome as [q Hq]. by rewrite Hq.
  - by rewrite Hr, Hr'.
Qed.

Lemma FindCmd_descends_witness :
  FindCmd Examples.alias_tree (Examples.alias_tree 1%positive) ["a"; "x"]
    Examples.forwards =
  FindCmd Examples.alias_tree (Examples.alias_tree 2%positive) ["x"]
    Examples.forwards.
Proof.
  apply (FindCmd_descends Examples.alias_tree (Examples.alias_tree 1%positive)
           "a" ["x"] 2%positive Examples.forwards).
  reflexivity.
Defined.

(** ** What the optional walk captures at the end of the line *)

Lemma FindCmd_optional_app h c l1 l2 st s :
  FindCmd_optional h c (l1 ++ l2) st s =
    FindCmd_optional h c l2 (FindCmd_optional h c l1 st s).1
                            (FindCmd_optional h c l1 st s).2.
Proof.
  revert st s. induction l1 as [|arg l1 IH]; intros st s; [done|].
  rewrite <- app_comm_cons, !FindCmd_optional_cons. cbv zeta. apply IH.
Qed.

Lemma findOptionalChildCmd_hit (h : heap) (c : Cmd) (name : string) (s : sched) :
  matches h (entries (optionalChildren c)) name →
  ∃ q, (findOptionalChildCmd h c name s).1 = Some q ∧
       resolves h (entries (optionalChildren c)) name (Some q).
Proof.
  intros Hm. destruct (findOptionalChildCmd_resolves h c name s) as [Hr _].
  destruct (findOptionalChildCmd h c name s).1 as [q|]; [by exists q|].
  by apply resolves_None_iff in Hr.
Qed.

Lemma findOptionalChildCmd_no_match (h : heap) (c : Cmd) (name : string) (s : sched) :
  ¬ matches h (entries (optionalChildren c)) name →
  (findOptionalChildCmd h c name s).1 = None.
Proof.
  intros Hno. eapply resolves_None; [done|]. apply findOptionalChildCmd_resolves.
Qed.

(** X19. The end of the line, when [FindCmd] returns the command [p]. If
    the last remaining argument names an optional child of [p], that child
    is in the optional map with the empty value. If the last two remaining
    arguments are a word naming an optional child of [p] and a word naming
    none, that child is in the map with the second word as its value. *)
Theorem FindCmd_captures_last_option (h : heap) (c : Cmd) (args : list string)
    (s : sched) (p : ptr) (pre : list string) (f v : string) :
  let found := (FindCmd h c args s).1 in
  found.1.1 = Some p →
  matches h (entries (optionalChildren (h p))) f →
  (found.2 = pre ++ [f] →
   ∃ q, resolves h (entries (optionalChildren (h p))) f (Some q) ∧
        found.1.2 !! q = Some "") ∧
  (found.2 = pre ++ [f; v] →
   ¬ matches h (entries (optionalChildren (h p))) v →
   ∃ q, resolves h (entries (optionalChildren (h p))) f (Some q) ∧
        found.1.2 !! q = Some v).
Proof.
  intros found. subst found. rewrite FindCmd_run. cbv zeta. cbn [fst snd].
  pose proof (FindCmd_scanned h c args s) as Hsc. unfold scanned in Hsc.
  intros Ec Hf. rewrite Ec in Hsc. destruct Hsc as (-> & _). split.
  - intros ->. rewrite FindCmd_optional_app, FindCmd_optional_cons. cbv zeta.
    rewrite FindCmd_optional_nil. cbn [fst].
    destruct (findOptionalChildCmd_hit h (h p) f
                (FindCmd_optional h (h p) pre (OptionalSt None ∅ "")
                   (FindCmd_required h args 0 args (RequiredSt None c []) s).2).2 Hf)
      as (q & -> & Hq).
    exists q. split; [done|]. unfold closeOut at 1. cbn. apply lookup_insert_eq.
  - intros -> Hv. rewrite FindCmd_optional_app, !FindCmd_optional_cons. cbv zeta.
    rewrite FindCmd_optional_nil. cbn [fst].
    destruct (findOptionalChildCmd_hit h (h p) f
                (FindCmd_optional h (h p) pre (OptionalSt None ∅ "")
                   (FindCmd_required h args 0 args (RequiredSt None c []) s).2).2 Hf)
      as (q & -> & Hq).
    rewrite findOptionalChildCmd_no_match by done.
    exists q. split; [done|]. unfold closeOut at 1. cbn. apply lookup_insert_eq.
Qed.

Lemma FindCmd_captures_last_option_witness :
  let h := Examples.user_tree in
  ∃ q, resolves h (entries (optionalChildren (h 2%positive))) "--verbose" (Some q) ∧
       (FindCmd h (h 1%positive) ["user"; "x"; "--verbose"; "extra"]
          Examples.backwards).1.1.2 !! q = Some "extra".
Proof.
  apply (proj2 (FindCmd_captures_last_option Examples.user_tree
                  (Examples.user_tree 1%positive)
                  ["user"; "x"; "--verbose"; "extra"] Examples.backwards
                  2%positive ["x"] "--verbose" "extra" eq_refl
                  ltac:(left; by eexists))).
  - reflexivity.
  - apply not_matches_run; reflexivity.
Defined.
